(** * Elementwise matrix operators of [ml-prims/src/matrix/math.h]

    A shallow embedding of the operators of namespace [MLCommon::Matrix]
    and the properties stated for them.

    Modelling conventions.
    - [math_t] is instantiated at [double]: IEEE 754 binary64, which is what
      Rocq's primitive [float] is.  Signed zeros, infinities and NaN are
      therefore those of the hardware; [=] on [float] distinguishes [0] from
      [-0], as the bit pattern does, while the comparisons [<?], [<=?], [=?]
      are the IEEE ones ([-0 =? 0] is [true], every comparison with NaN is
      [false]).
    - A device buffer ([math_t*]) is a [list float]; [b !! i] is [b[i]].
      An access outside the buffer is undefined behaviour in the source and
      [None] here: every operator returns [option buffer].
    - [int] lengths and indices are natural numbers.  The source never
      produces a negative index, and the buffers are assumed to have fewer
      than 2^31 elements, so that no [int] computation wraps.
    - [thrust::for_each(counting, counting + len, body)] runs [body] once
      for every index of the range, on the device in no specified order.
      The embedding runs the indices in increasing order and threads the
      buffer through them.  Except for [signFlip], every body reads and
      writes only cell [idx] of the buffer it updates, so the order is
      immaterial.  A column body of [signFlip] writes its own column only,
      but may read [inout[0]]: the order of the bodies is made a parameter
      ([signFlip_sched]), and what is stated about one column is stated
      about its body. *)

From Stdlib Require Import Floats ZArith.
From stdpp Require Import base option list.

Set Warnings "-inexact-float".

Module Matrix.

(** ** Buffers and loops *)

Abbreviation buffer := (list float).

(** [b[i]] as an rvalue. *)
Definition load (b : buffer) (i : nat) : option float := b !! i.

(** [b[i] = v]. *)
Definition store (b : buffer) (i : nat) (v : float) : option buffer :=
  if decide (i < length b) then Some (<[i:=v]> b) else None.

(** The index range [first, first + n) of a counting iterator, and of a
    [for (int i = first; i < first + n; i++)] loop. *)
Definition counting (first n : nat) : list nat := seq first n.

(** Runs [body idx] on the state for every [idx] of [range], in order. *)
Fixpoint for_each {S : Type} (range : list nat)
    (body : nat → S → option S) (s : S) : option S :=
  match range with
  | [] => Some s
  | idx :: rest => s' ← body idx s; for_each rest body s'
  end.

(** ** power *)

(** [power(inout, scalar, len)], lines 36-46. *)
Definition power (inout : buffer) (scalar : float) (len : nat) : option buffer :=
  for_each (counting 0 len) (λ idx d_A,
    x ← load d_A idx;
    store d_A idx (x * x * scalar)%float) inout.

(** [power(in, out, scalar, len)], lines 56-67.  The result is the new
    contents of [out]. *)
Definition power_out (in_ out : buffer) (scalar : float) (len : nat)
    : option buffer :=
  for_each (counting 0 len) (λ idx d_dest,
    x ← load in_ idx;
    store d_dest idx (x * x * scalar)%float) out.

(** [power(inout, len)], lines 75-79. *)
Definition power_noscalar (inout : buffer) (len : nat) : option buffer :=
  let scalar := 1%float in
  power inout scalar len.

(** [power(in, out, len)], lines 88-92. *)
Definition power_out_noscalar (in_ out : buffer) (len : nat) : option buffer :=
  let scalar := 1%float in
  power_out in_ out scalar len.

(** ** seqRoot *)

(** [seqRoot(inout, scalar, len)], lines 101-111. *)
Definition seqRoot (inout : buffer) (scalar : float) (len : nat)
    : option buffer :=
  for_each (counting 0 len) (λ idx d_A,
    x ← load d_A idx;
    store d_A idx (PrimFloat.sqrt (x * scalar))%float) inout.

(** [seqRoot(in, out, scalar, len, set_neg_zero)], lines 121-141.  The
    result is the new contents of [out]. *)
Definition seqRoot_out (in_ out : buffer) (scalar : float) (len : nat)
    (set_neg_zero : bool) : option buffer :=
  for_each (counting 0 len) (λ idx d_dest,
    if set_neg_zero then
      x ← load in_ idx;
      if (x <? 0)%float then store d_dest idx 0%float
      else store d_dest idx (PrimFloat.sqrt (x * scalar))%float
    else
      x ← load in_ idx;
      store d_dest idx (PrimFloat.sqrt (x * scalar))%float) out.

(** [seqRoot(inout, len)], lines 149-153. *)
Definition seqRoot_noscalar (inout : buffer) (len : nat) : option buffer :=
  let scalar := 1%float in
  seqRoot inout scalar len.

(** [seqRoot(in, out, len)], lines 162-166: the call has four arguments,
    so [set_neg_zero] takes its default [false]. *)
Definition seqRoot_out_noscalar (in_ out : buffer) (len : nat)
    : option buffer :=
  let scalar := 1%float in
  seqRoot_out in_ out scalar len false.

(** ** reciprocal *)

Definition thres_default : float := 1e-15%float.

(** [reciprocal(inout, scalar, len, setzero, thres)], lines 175-194. *)
Definition reciprocal (inout : buffer) (scalar : float) (len : nat)
    (setzero : bool) (thres : float) : option buffer :=
  for_each (counting 0 len) (λ idx d_A,
    if setzero then
      x ← load d_A idx;
      if (x <=? thres)%float then store d_A idx 0%float
      else store d_A idx (scalar / x)%float
    else
      x ← load d_A idx;
      store d_A idx (scalar / x)%float) inout.

(** [reciprocal(in, out, scalar, len)], lines 240-251.  The result is the
    new contents of [out]. *)
Definition reciprocal_out (in_ out : buffer) (scalar : float) (len : nat)
    : option buffer :=
  for_each (counting 0 len) (λ idx d_dest,
    x ← load in_ idx;
    store d_dest idx (scalar / x)%float) out.

(** [reciprocal(inout, len, setzero, thres)], lines 259-263.  The call
    [reciprocal(inout, scalar, len)] in its body has three arguments of types
    [math_t*], [math_t], [int]: overload resolution selects the in-place
    scalar form, whose two remaining parameters take their defaults
    [setzero = false], [thres = 1e-15]. *)
Definition reciprocal_noscalar (inout : buffer) (len : nat)
    (setzero : bool) (thres : float) : option buffer :=
  let scalar := 1%float in
  reciprocal inout scalar len false thres_default.

(** [reciprocal(in, out, len)], lines 272-276. *)
Definition reciprocal_out_noscalar (in_ out : buffer) (len : nat)
    : option buffer :=
  let scalar := 1%float in
  reciprocal_out in_ out scalar len.

(** ** setSmallValuesZero *)

(** [setSmallValuesZero(inout, len, thres)], lines 203-217. *)
Definition setSmallValuesZero (inout : buffer) (len : nat) (thres : float)
    : option buffer :=
  for_each (counting 0 len) (λ idx d_A,
    x ← load d_A idx;
    if (x <=? thres)%float then store d_A idx 0%float
    else store d_A idx x) inout.

(** ** ratio *)

(** The inner loop of [ratio]: [total = 0.0; for i < s: total += d_src[i]]. *)
Definition ratio_total (d_src : buffer) (s : nat) : option float :=
  for_each (counting 0 s) (λ i total,
    x ← load d_src i;
    Some (total + x)%float) 0%float.

(** [ratio(src, dest, len)], lines 288-306, for [dest] a buffer distinct
    from [src].  The result is the new contents of [dest]. *)
Definition ratio (src dest : buffer) (len : nat) : option buffer :=
  let s := len in
  for_each (counting 0 len) (λ idx d_dest,
    total ← ratio_total src s;
    if negb (total =? 0)%float then
      x ← load src idx;
      store d_dest idx (x / total)%float
    else Some d_dest) dest.

(** ** signFlip *)

(** The scan loop of one column, lines 326-337: the state is
    [(max, max_index)]. *)
Definition signFlip_scan (inout : buffer) (d_i m : nat) : option (float * nat) :=
  for_each (counting d_i m) (λ i st,
    let '(max, max_index) := st in
    x ← load inout i;
    let val := if (x <? 0)%float then (- x)%float else x in
    if (max <? val)%float then Some (val, i) else Some (max, max_index))
    (0%float, 0).

(** The negation loop of one column, lines 340-342. *)
Definition signFlip_negate (inout : buffer) (d_i m : nat) : option buffer :=
  for_each (counting d_i m) (λ i b,
    x ← load b i;
    store b i (- x)%float) inout.

(** The body run for column [idx], lines 322-344. *)
Definition signFlip_col (m : nat) (idx : nat) (inout : buffer) : option buffer :=
  let d_i := idx * m in
  '(_, max_index) ← signFlip_scan inout d_i m;
  x ← load inout max_index;
  if (x <? 0)%float then signFlip_negate inout d_i m else Some inout.

(** [signFlip] with the column bodies run one after the other in the order
    [sched]. *)
Definition signFlip_sched (sched : list nat) (inout : buffer) (n_rows : nat)
    : option buffer :=
  let m := n_rows in
  for_each sched (signFlip_col m) inout.

(** [signFlip(inout, n_rows, n_cols)], lines 316-346. *)
Definition signFlip (inout : buffer) (n_rows n_cols : nat) : option buffer :=
  signFlip_sched (counting 0 n_cols) inout n_rows.

(** ** Matrix-vector operators *)

Section MatrixVector.

(** [matrixVectorOp(matrix, vec, D, N, rowMajor, op)] of
    [linalg/matrix_vector_op.h], which is not part of this header: it
    combines every matrix element with an entry of [vec] through [op] and
    stores the result in place. *)
Variable matrixVectorOp :
  buffer → buffer → nat → nat → bool → (float → float → float) → option buffer.

(** The combining functions of [matrixVectorBinaryDivSkipZero],
    lines 380-385 and 388-393. *)
Definition divSkipZero_zero_op (a b : float) : float :=
  if (b <? 1e-10)%float then 0%float else (a / b)%float.

Definition divSkipZero_keep_op (a b : float) : float :=
  if (b <? 1e-10)%float then a else (a / b)%float.

(** [matrixVectorBinaryDivSkipZero], lines 375-395. *)
Definition matrixVectorBinaryDivSkipZero (data vec : buffer)
    (n_row n_col : nat) (rowMajor return_zero : bool) : option buffer :=
  if return_zero then
    matrixVectorOp data vec n_col n_row rowMajor divSkipZero_zero_op
  else
    matrixVectorOp data vec n_col n_row rowMajor divSkipZero_keep_op.

(** The combining function of the matrix-vector [setSmallValuesZero],
    lines 223-228. *)
Definition maskSmall_op (a b : float) : float :=
  if (b <? 1e-10)%float then 0%float else a.

(** [setSmallValuesZero(inout, vec, n_row, n_col, thres)], lines 219-230. *)
Definition setSmallValuesZero_vec (inout vec : buffer) (n_row n_col : nat)
    (thres : float) : option buffer :=
  matrixVectorOp inout vec n_col n_row false maskSmall_op.

End MatrixVector.

(** Modelled from the spec: the broadcast-apply engine [matrixVectorOp],
    whose source is not in this header.  "Given a matrix buffer, a vector
    buffer, row count, column count, a row-major/column-major flag, and a
    binary combining function, [it] computes, for every matrix element, the
    corresponding vector index per the layout flag, and writes the combined
    result back into the matrix buffer in place."  Which vector index
    corresponds to a matrix position is the engine's business and is left
    open: [vec_index D N rowMajor idx]. *)
Definition broadcast_engine (vec_index : nat → nat → bool → nat → nat)
    (matrix vec : buffer) (D N : nat) (rowMajor : bool)
    (op : float → float → float) : option buffer :=
  for_each (counting 0 (N * D)) (λ idx d,
    a ← load d idx;
    b ← load vec (vec_index D N rowMajor idx);
    store d idx (op a b)) matrix.

(** ** Specification-level functions

    What an elementwise loop leaves in a buffer, as a function on lists. *)

(** [g] applied to the cells [first, first + n) of [b], the others kept. *)
Definition map_range (g : float → float) (first n : nat) (b : buffer) : buffer :=
  imap (λ i x, if decide (first ≤ i < first + n) then g x else x) b.

(** The cells [0, n) of [dst] overwritten with [g] of the cells of [src],
    the others kept. *)
Definition transfer (g : float → float) (n : nat) (src dst : buffer) : buffer :=
  imap (λ i y, if decide (i < n) then from_option g y (src !! i) else y) dst.

(** The cells [0, n) of [matrix] combined through [op] with the vector
    entries [pick] selects, the others kept. *)
Definition broadcast (op : float → float → float) (pick : nat → nat) (n : nat)
    (matrix vec : buffer) : buffer :=
  imap (λ i a, if decide (i < n) then from_option (op a) a (vec !! pick i)
               else a) matrix.

(** The running sum of the source's loop: from [0.0], left to right. *)
Definition sum_from_zero (l : buffer) : float :=
  foldl PrimFloat.add 0%float l.

(** The rule "zero when [|x| <= thres], unchanged when [|x| > thres]" for
    [setSmallValuesZero], on a one-element buffer: the element is compared
    by magnitude. *)
Definition zeroes_by_magnitude : Prop :=
  ∀ x thres : float,
    setSmallValuesZero [x] 1 thres
    = Some [if (abs x <=? thres)%float then 0%float else x].

(** The magnitude the scan of [signFlip] compares, lines 329-332. *)
Definition magnitude (x : float) : float :=
  if (x <? 0)%float then (- x)%float else x.

(** [magnitude] on the specification of binary64. *)
Definition SFmagnitude (s : spec_float) : spec_float :=
  if SFltb s (S754_zero false) then SFopp s else s.

(** Cell [j], holding [xj], is the first cell of largest magnitude among
    the cells [first, first + n) of [b]: its magnitude is above zero (so
    [xj] is neither a NaN, with which every comparison is false, nor a
    zero), no cell of the range has a magnitude above that of [xj], and no
    earlier one has a magnitude at least that of [xj]. *)
Definition first_largest (b : buffer) (first n j : nat) (xj : float) : Prop :=
  first ≤ j < first + n
  ∧ b !! j = Some xj
  ∧ (0 <? magnitude xj)%float = true
  ∧ (∀ i x, first ≤ i < first + n → b !! i = Some x →
       (magnitude xj <? magnitude x)%float = false)
  ∧ (∀ i x, first ≤ i < j → b !! i = Some x →
       (magnitude xj <=? magnitude x)%float = false).

(** Some cell of the range has a magnitude above zero (it is neither a
    zero nor a NaN). *)
Definition has_magnitude (b : buffer) (first n : nat) : Prop :=
  ∃ i x, first ≤ i < first + n ∧ b !! i = Some x
         ∧ (0 <? magnitude x)%float = true.

(** An order in which the bodies of the columns [0 .. n_cols) may run:
    every column once. *)
Definition column_schedule (n_cols : nat) (sched : list nat) : Prop :=
  NoDup sched ∧ ∀ idx, idx ∈ sched ↔ idx < n_cols.

(** What the scan knows after the cells [first, first + k): no cell seen
    has a magnitude above the running maximum [mx]; and either nothing was
    recorded, or [j] is a cell seen, of magnitude [mx] above zero, with no
    earlier cell of magnitude at least [mx]. *)
Definition scanned (b : buffer) (first k : nat) (st : float * nat) : Prop :=
  let '(mx, j) := st in
  (∀ i x, first ≤ i < first + k → b !! i = Some x →
     (mx <? magnitude x)%float = false)
  ∧ ((mx = 0%float ∧ j = 0)
     ∨ ∃ xj, first ≤ j < first + k ∧ b !! j = Some xj
         ∧ mx = magnitude xj ∧ (0 <? mx)%float = true
         ∧ ∀ i x, first ≤ i < j → b !! i = Some x →
             (mx <=? magnitude x)%float = false).


(** * Properties *)

(** ** Loops *)

Section Loops.
Context {S : Type}.
Implicit Types (body : nat → S → option S) (s : S).

Lemma for_each_app l1 l2 body s :
  for_each (l1 ++ l2) body s = s' ← for_each l1 body s; for_each l2 body s'.
Proof.
  revert s. induction l1 as [|i l1 IH]; intros s; simpl; [done|].
  destruct (body i s) as [s'|]; simpl; [apply IH | done].
Qed.

Lemma for_each_ext l body1 body2 s :
  (∀ i s, body1 i s = body2 i s) →
  for_each l body1 s = for_each l body2 s.
Proof.
  intros Hext. revert s. induction l as [|i l IH]; intros s; simpl; [done|].
  rewrite Hext. destruct (body2 i s); simpl; auto.
Qed.

Lemma for_each_idle l body s :
  (∀ i, body i s = Some s) → for_each l body s = Some s.
Proof.
  intros Hidle. induction l as [|i l IH]; simpl; [done|].
  by rewrite Hidle.
Qed.

Lemma counting_snoc first n :
  counting first (Datatypes.S n) = counting first n ++ [first + n].
Proof. apply seq_S. Qed.

(** The loop rule: an invariant indexed by the number of iterations done. *)
Lemma for_each_invariant (I : nat → S → Prop) first n body s :
  I 0 s →
  (∀ k s, k < n → I k s →
     ∃ s', body (first + k) s = Some s' ∧ I (Datatypes.S k) s') →
  ∃ s', for_each (counting first n) body s = Some s' ∧ I n s'.
Proof.
  intros Hinit. induction n as [|n IH]; intros Hstep.
  - exists s. done.
  - destruct IH as (s1 & Hrun & Hinv).
    { intros k s0 Hk. apply Hstep. lia. }
    destruct (Hstep n s1) as (s2 & Hbody & Hinv2); [lia|done|].
    exists s2. split; [|done].
    rewrite counting_snoc, for_each_app, Hrun. simpl. by rewrite Hbody.
Qed.

(** The same rule for an arbitrary range: the invariant is indexed by the
    indices done. *)
Lemma for_each_list_invariant (I : list nat → S → Prop) range body s :
  I [] s →
  (∀ pre i post s, range = pre ++ i :: post → I pre s →
     ∃ s', body i s = Some s' ∧ I (pre ++ [i]) s') →
  ∃ s', for_each range body s = Some s' ∧ I range s'.
Proof.
  intros Hinit Hstep.
  assert (∀ post pre s, range = pre ++ post → I pre s →
            ∃ s', for_each post body s = Some s' ∧ I (pre ++ post) s')
    as Hgen.
  { induction post as [|i post IH]; intros pre s0 Hrange Hpre.
    - exists s0. by rewrite app_nil_r.
    - destruct (Hstep pre i post s0 Hrange Hpre) as (s1 & Hbody & Hpre1).
      destruct (IH (pre ++ [i]) s1) as (s2 & Hrun & Hpre2);
        [by rewrite <- app_assoc|done|].
      exists s2. simpl. rewrite Hbody. simpl.
      by rewrite <- app_assoc in Hpre2. }
  by apply (Hgen range []).
Qed.

End Loops.

(** ** Elementwise loops *)

Lemma length_map_range g first n b : length (map_range g first n b) = length b.
Proof. apply length_imap. Qed.

Lemma lookup_map_range g first n (b : buffer) i :
  map_range g first n b !! i
  = (λ x, if decide (first ≤ i < first + n) then g x else x) <$> b !! i.
Proof. unfold map_range. by rewrite list_lookup_imap. Qed.

Lemma map_range_empty g first (b : buffer) : map_range g first 0 b = b.
Proof.
  apply list_eq. intros i. rewrite lookup_map_range.
  destruct (b !! i); simpl; [|done]. case_decide; [lia|done].
Qed.

Lemma map_range_step g first n (b : buffer) x :
  b !! (first + n) = Some x →
  <[first + n := g x]> (map_range g first n b) = map_range g first (S n) b.
Proof.
  intros Hx. apply list_eq. intros i.
  rewrite list_lookup_insert, length_map_range, !lookup_map_range.
  apply lookup_lt_Some in Hx as Hlt.
  destruct (decide (first + n = i)) as [<-|Hne].
  - rewrite decide_True by done. rewrite Hx. simpl.
    rewrite decide_True by lia. done.
  - rewrite decide_False by tauto.
    destruct (b !! i); simpl; [|done].
    repeat case_decide; (done || lia).
Qed.

(** An in-place loop over the cells [first, first + n). *)
Lemma inplace_range g first n (b : buffer) :
  first + n ≤ length b →
  for_each (counting first n) (λ i d, x ← load d i; store d i (g x)) b
  = Some (map_range g first n b).
Proof.
  intros Hlen.
  destruct (for_each_invariant
    (λ k d, k ≤ n ∧ d = map_range g first k b) first n
    (λ i d, x ← load d i; store d i (g x)) b) as (d & Hrun & _ & ->);
    [ | | done].
  - simpl. split; [lia|]. by rewrite map_range_empty.
  - intros k d Hk [_ ->].
    destruct (lookup_lt_is_Some_2 b (first + k)) as [x Hx]; [lia|].
    exists (map_range g first (S k) b). split; [|split; [lia|done]].
    unfold load, store. rewrite lookup_map_range, Hx. simpl.
    rewrite decide_True by (rewrite length_map_range; lia).
    rewrite decide_False by lia.
    by rewrite map_range_step.
Qed.

(** A loop that runs past the end of its buffer is undefined. *)
Lemma inplace_overrun g len (b : buffer) :
  length b < len →
  for_each (counting 0 len) (λ i d, x ← load d i; store d i (g x)) b = None.
Proof.
  intros Hlt. unfold counting.
  replace len with (length b + (1 + (len - length b - 1))) by lia.
  rewrite !seq_app, !for_each_app.
  fold (counting 0 (length b)). rewrite inplace_range by lia. simpl.
  unfold load. rewrite lookup_ge_None_2; [done|].
  rewrite length_map_range. lia.
Qed.

Lemma inplace_prefix g len (b : buffer) :
  for_each (counting 0 len) (λ i d, x ← load d i; store d i (g x)) b
  = if decide (len ≤ length b) then Some (map_range g 0 len b) else None.
Proof.
  case_decide.
  - by apply inplace_range.
  - apply inplace_overrun. lia.
Qed.

Lemma length_transfer g n src dst : length (transfer g n src dst) = length dst.
Proof. apply length_imap. Qed.

Lemma lookup_transfer g n (src dst : buffer) i :
  transfer g n src dst !! i
  = (λ y, if decide (i < n) then from_option g y (src !! i) else y) <$> dst !! i.
Proof. unfold transfer. by rewrite list_lookup_imap. Qed.

(** A loop from a source buffer into a distinct destination. *)
Lemma outofplace_prefix g len (src dst : buffer) :
  len ≤ length src → len ≤ length dst →
  for_each (counting 0 len) (λ i d, x ← load src i; store d i (g x)) dst
  = Some (transfer g len src dst).
Proof.
  intros Hsrc Hdst.
  destruct (for_each_invariant
    (λ k d, k ≤ len ∧ d = transfer g k src dst) 0 len
    (λ i d, x ← load src i; store d i (g x)) dst) as (d & Hrun & _ & ->);
    [ | | done].
  - simpl. split; [lia|]. apply list_eq. intros i. rewrite lookup_transfer.
    by destruct (dst !! i).
  - intros k d Hk Hinv. simpl in Hinv. destruct Hinv as [_ ->]. simpl.
    destruct (lookup_lt_is_Some_2 src k) as [x Hx]; [lia|].
    exists (transfer g (S k) src dst). split; [|split; [lia|done]].
    unfold load, store. rewrite Hx. simpl.
    rewrite decide_True by (rewrite length_transfer; lia).
    f_equal. apply list_eq. intros i.
    rewrite list_lookup_insert, length_transfer, !lookup_transfer.
    destruct (decide (k = i)) as [<-|Hne].
    + rewrite decide_True by (split; [done|lia]).
      destruct (lookup_lt_is_Some_2 dst k) as [y Hy]; [lia|].
      rewrite Hy, Hx. simpl. by rewrite decide_True by lia.
    + rewrite decide_False by tauto.
      destruct (dst !! i); simpl; [|done].
      repeat case_decide; (done || lia).
Qed.

(** ** reciprocal *)

(** The value [reciprocal] stores for the element [x]. *)
Lemma reciprocal_body scalar (setzero : bool) thres idx (d_A : buffer) :
  (if setzero then
     x ← load d_A idx;
     if (x <=? thres)%float then store d_A idx 0%float
     else store d_A idx (scalar / x)%float
   else
     x ← load d_A idx;
     store d_A idx (scalar / x)%float)
  = (x ← load d_A idx;
     store d_A idx
       (if setzero then if (x <=? thres)%float then 0 else scalar / x
        else scalar / x)%float).
Proof.
  destruct setzero; [|done].
  destruct (load d_A idx) as [x|]; [simpl|done].
  by destruct (x <=? thres)%float.
Qed.

Lemma reciprocal_spec inout scalar len setzero thres :
  reciprocal inout scalar len setzero thres
  = if decide (len ≤ length inout) then
      Some (map_range
        (λ x, if setzero then if (x <=? thres)%float then 0 else scalar / x
              else scalar / x)%float 0 len inout)
    else None.
Proof.
  unfold reciprocal. rewrite <- inplace_prefix.
  apply for_each_ext. intros idx d_A. apply reciprocal_body.
Qed.

(** What the scalar-omitted overload computes: the parameters [setzero] and
    [thres] it receives do not reach the scalar-taking form. *)
Lemma reciprocal_noscalar_spec inout len setzero thres :
  reciprocal_noscalar inout len setzero thres
  = reciprocal inout 1%float len false thres_default.
Proof. reflexivity. Qed.

(** Without the guard the overload is the specialization at [scalar = 1]:
    the threshold plays no part. *)
Lemma reciprocal_noscalar_unguarded inout len thres :
  reciprocal_noscalar inout len false thres
  = reciprocal inout 1%float len false thres.
Proof. rewrite reciprocal_noscalar_spec. by rewrite !reciprocal_spec. Qed.

(** C1, at a failing input.  On the one-element buffer [[0]] with
    [setzero = true] and [thres = 1e-15], the scalar-taking form called with
    [scalar = 1] stores [0], while the scalar-omitted overload divides and
    stores [1 / 0], which is [+infinity]: the two forms disagree. *)
Theorem reciprocal_noscalar_ignores_guard :
  reciprocal [0%float] 1%float 1 true thres_default = Some [0%float]
  ∧ reciprocal_noscalar [0%float] 1 true thres_default = Some [infinity]
  ∧ reciprocal_noscalar [0%float] 1 true thres_default
    ≠ reciprocal [0%float] 1%float 1 true thres_default.
Proof.
  split; [by vm_compute|]. split; [by vm_compute|].
  vm_compute. discriminate.
Qed.

(** C5.  With [setZero] the in-place [reciprocal] turns every element
    [x <= thres] of the first [len] cells into [0] and every other one into
    [scalar / x]; without [setZero] it turns every element into
    [scalar / x]; the two-buffer form writes [scalar / x] for every element,
    whatever [x] is.  Cells from [len] on are not touched. *)
Theorem reciprocal_zero_guard (inout in_ out : buffer) scalar len setZero thres :
  len ≤ length inout → len ≤ length in_ → len ≤ length out →
  ∃ res res',
    reciprocal inout scalar len setZero thres = Some res
    ∧ reciprocal_out in_ out scalar len = Some res'
    ∧ length res = length inout ∧ length res' = length out
    ∧ (∀ i x, i < len → inout !! i = Some x →
         res !! i = Some (if setZero then
                            if (x <=? thres)%float then 0%float
                            else (scalar / x)%float
                          else (scalar / x)%float))
    ∧ (∀ i x, i < len → in_ !! i = Some x →
         res' !! i = Some (scalar / x)%float)
    ∧ (∀ i, len ≤ i → res !! i = inout !! i ∧ res' !! i = out !! i).
Proof.
  intros Hinout Hin Hout. eexists _, _.
  split; [rewrite reciprocal_spec; by rewrite decide_True by done|].
  split; [by apply outofplace_prefix|].
  split; [apply length_map_range|]. split; [apply length_transfer|].
  split; [|split].
  - intros i x Hi Hx. rewrite lookup_map_range, Hx. simpl.
    by rewrite decide_True by lia.
  - intros i x Hi Hx. rewrite lookup_transfer, Hx.
    destruct (lookup_lt_is_Some_2 out i) as [y ->]; [lia|]. simpl.
    by rewrite decide_True by lia.
  - intros i Hi. rewrite lookup_map_range, lookup_transfer.
    split.
    + destruct (inout !! i); [simpl|done]. by rewrite decide_False by lia.
    + destruct (out !! i); [simpl|done]. by rewrite decide_False by lia.
Qed.

Lemma reciprocal_zero_guard_witness :
  ∃ res res',
    reciprocal [2; 0; -4]%float 3%float 3 true thres_default = Some res
    ∧ reciprocal_out [2; 0; -4]%float [7; 7; 7]%float 3%float 3 = Some res'
    ∧ length res = 3 ∧ length res' = 3
    ∧ (∀ i x, i < 3 → [2; 0; -4]%float !! i = Some x →
         res !! i = Some (if true then
                            if (x <=? thres_default)%float then 0%float
                            else (3 / x)%float
                          else (3 / x)%float))
    ∧ (∀ i x, i < 3 → [2; 0; -4]%float !! i = Some x →
         res' !! i = Some (3 / x)%float)
    ∧ (∀ i, 3 ≤ i →
         res !! i = [2; 0; -4]%float !! i ∧ res' !! i = [7; 7; 7]%float !! i).
Proof.
  apply (reciprocal_zero_guard [2; 0; -4]%float [2; 0; -4]%float
           [7; 7; 7]%float 3%float 3 true thres_default); simpl; lia.
Defined.

Example reciprocal_out_run :
  reciprocal_out [2; 0; -4]%float [7; 7; 7]%float 3%float 3
  = Some [1.5; infinity; -0.75]%float.
Proof. by vm_compute. Qed.

(** ** setSmallValuesZero *)

Lemma setSmallValuesZero_body thres idx (d_A : buffer) :
  (x ← load d_A idx;
   if (x <=? thres)%float then store d_A idx 0%float else store d_A idx x)
  = (x ← load d_A idx;
     store d_A idx (if (x <=? thres)%float then 0%float else x)).
Proof.
  destruct (load d_A idx) as [x|]; [simpl|done].
  by destruct (x <=? thres)%float.
Qed.

Lemma setSmallValuesZero_spec inout len thres :
  setSmallValuesZero inout len thres
  = if decide (len ≤ length inout) then
      Some (map_range (λ x, if (x <=? thres)%float then 0%float else x)
              0 len inout)
    else None.
Proof.
  unfold setSmallValuesZero. rewrite <- inplace_prefix.
  apply for_each_ext. intros idx d_A. apply setSmallValuesZero_body.
Qed.

(** C6 as worded fails: [-100] has magnitude [100 > 1e-15], but it is
    [<= 1e-15] as a signed value, and [setSmallValuesZero] replaces it
    with [0]. *)
Lemma setSmallValuesZero_not_by_magnitude :
  (abs (-100) <=? thres_default)%float = false
  ∧ setSmallValuesZero [(-100)%float] 1 thres_default = Some [0%float]
  ∧ ¬ zeroes_by_magnitude.
Proof.
  split; [by vm_compute|]. split; [by vm_compute|].
  intros Hrule. specialize (Hrule (-100)%float thres_default).
  vm_compute in Hrule. discriminate.
Qed.

(** C6, amended.  [setSmallValuesZero] compares the signed value: among the
    first [len] cells, an element [x] becomes [0] when [x <= thres] and is
    left unchanged otherwise; the cells from [len] on are not touched.
    Every element below the threshold is zeroed, whatever its magnitude. *)
Theorem setSmallValuesZero_signed (inout : buffer) len thres :
  len ≤ length inout →
  ∃ res,
    setSmallValuesZero inout len thres = Some res
    ∧ length res = length inout
    ∧ (∀ i x, i < len → inout !! i = Some x →
         res !! i = Some (if (x <=? thres)%float then 0%float else x))
    ∧ (∀ i, len ≤ i → res !! i = inout !! i).
Proof.
  intros Hlen. eexists.
  split; [rewrite setSmallValuesZero_spec; by rewrite decide_True by done|].
  split; [apply length_map_range|]. split.
  - intros i x Hi Hx. rewrite lookup_map_range, Hx. simpl.
    by rewrite decide_True by lia.
  - intros i Hi. rewrite lookup_map_range.
    destruct (inout !! i); [simpl|done]. by rewrite decide_False by lia.
Qed.

Lemma setSmallValuesZero_signed_witness :
  ∃ res,
    setSmallValuesZero [3; -100; 1e-16; 7]%float 3 thres_default = Some res
    ∧ length res = 4
    ∧ (∀ i x, i < 3 → [3; -100; 1e-16; 7]%float !! i = Some x →
         res !! i = Some (if (x <=? thres_default)%float then 0%float else x))
    ∧ (∀ i, 3 ≤ i → res !! i = [3; -100; 1e-16; 7]%float !! i).
Proof.
  apply (setSmallValuesZero_signed [3; -100; 1e-16; 7]%float 3 thres_default).
  simpl. lia.
Defined.

Example setSmallValuesZero_run :
  setSmallValuesZero [3; -100; 1e-16; 7]%float 3 thres_default
  = Some [3; 0; 0; 7]%float.
Proof. by vm_compute. Qed.

(** C7.  Applying [setSmallValuesZero] a second time with the same [len]
    and [thres] gives the buffer the first application gave.  This holds
    for every threshold, in particular for [thres >= 0]: a cell the first
    pass zeroed is either zeroed again or kept, and a cell it kept is not
    [<= thres].  When [len] exceeds the buffer both sides are undefined. *)
Theorem setSmallValuesZero_idempotent (inout : buffer) len thres :
  (b ← setSmallValuesZero inout len thres; setSmallValuesZero b len thres)
  = setSmallValuesZero inout len thres.
Proof.
  rewrite (setSmallValuesZero_spec inout). case_decide as Hlen; [simpl|done].
  rewrite setSmallValuesZero_spec, length_map_range.
  rewrite decide_True by done. f_equal.
  apply list_eq. intros i. rewrite !lookup_map_range.
  destruct (inout !! i) as [x|]; [simpl|done]. f_equal.
  case_decide; [|done].
  destruct (x <=? thres)%float eqn:Hx.
  - by destruct (0 <=? thres)%float.
  - by rewrite Hx.
Qed.

(** ** ratio *)

(** The inner loop computes the same total whatever [idx] is: it reads
    [src] only. *)
Lemma ratio_total_spec (src : buffer) s :
  s ≤ length src → ratio_total src s = Some (sum_from_zero (take s src)).
Proof.
  intros Hs. unfold ratio_total.
  destruct (for_each_invariant
    (λ k total, k ≤ s ∧ total = sum_from_zero (take k src)) 0 s
    (λ i total, x ← load src i; Some (total + x)%float) 0%float)
    as (total & Hrun & _ & ->); [ | | done].
  - simpl. split; [lia|]. by rewrite take_0.
  - intros k total Hk Hinv. simpl in Hinv. destruct Hinv as [_ ->]. simpl.
    destruct (lookup_lt_is_Some_2 src k) as [x Hx]; [lia|].
    eexists. split; [unfold load; by rewrite Hx|]. split; [lia|].
    rewrite (take_S_r _ _ _ Hx). unfold sum_from_zero.
    by rewrite foldl_app.
Qed.

Lemma ratio_spec (src dest : buffer) len :
  len ≤ length src → len ≤ length dest →
  ratio src dest len
  = Some (let total := sum_from_zero (take len src) in
          if (total =? 0)%float then dest
          else transfer (λ x, x / total)%float len src dest).
Proof.
  intros Hsrc Hdest. unfold ratio. rewrite ratio_total_spec by done. simpl.
  destruct (sum_from_zero (take len src) =? 0)%float; simpl.
  - by apply for_each_idle.
  - by apply (outofplace_prefix (λ x, x / _)%float).
Qed.

(** C3.  For [dest] distinct from [src], [ratio] computes one total, the
    sum of the unmodified [src[0..len)] accumulated from [0.0] in index
    order, the same for every output index.  When the total compares equal
    to [0] nothing is written and [dest] keeps its contents; otherwise
    [dest[i] = src[i] / total] for every [i < len].  Cells from [len] on are
    not touched. *)
Theorem ratio_by_total (src dest : buffer) len :
  0 < len → len ≤ length src → len ≤ length dest →
  let total := sum_from_zero (take len src) in
  ∃ res,
    ratio src dest len = Some res
    ∧ length res = length dest
    ∧ ((total =? 0)%float = true → res = dest)
    ∧ ((total =? 0)%float = false →
         ∀ i x, i < len → src !! i = Some x →
           res !! i = Some (x / total)%float)
    ∧ (∀ i, len ≤ i → res !! i = dest !! i).
Proof.
  intros _ Hsrc Hdest total. eexists.
  split; [by apply ratio_spec|]. fold total.
  destruct (total =? 0)%float eqn:Htotal; simpl; rewrite Htotal.
  - split; [done|]. split; [done|]. split; [discriminate|done].
  - split; [apply length_transfer|]. split; [discriminate|]. split.
    + intros _ i x Hi Hx. rewrite lookup_transfer, Hx.
      destruct (lookup_lt_is_Some_2 dest i) as [y ->]; [lia|]. simpl.
      by rewrite decide_True by lia.
    + intros i Hi. rewrite lookup_transfer.
      destruct (dest !! i); [simpl|done]. by rewrite decide_False by lia.
Qed.

Lemma ratio_by_total_witness :
  let total := sum_from_zero (take 3 [1; 2; 5; 9]%float) in
  ∃ res,
    ratio [1; 2; 5; 9]%float [7; 7; 7; 7]%float 3 = Some res
    ∧ length res = 4
    ∧ ((total =? 0)%float = true → res = [7; 7; 7; 7]%float)
    ∧ ((total =? 0)%float = false →
         ∀ i x, i < 3 → [1; 2; 5; 9]%float !! i = Some x →
           res !! i = Some (x / total)%float)
    ∧ (∀ i, 3 ≤ i → res !! i = [7; 7; 7; 7]%float !! i).
Proof.
  apply (ratio_by_total [1; 2; 5; 9]%float [7; 7; 7; 7]%float 3);
    simpl; lia.
Defined.

Example ratio_run :
  ratio [1; 2; 5; 9]%float [7; 7; 7; 7]%float 3
  = Some [0.125; 0.25; 0.625; 7]%float.
Proof. by vm_compute. Qed.

Example ratio_zero_total_run :
  ratio [1; -1; 0]%float [7; 7; 7]%float 3 = Some [7; 7; 7]%float.
Proof. by vm_compute. Qed.

(** ** Matrix-vector operators *)

Section MatrixVectorProperties.

(** The broadcast engine is arbitrary: the properties below concern what
    this header hands to it. *)
Variable matrixVectorOp :
  buffer → buffer → nat → nat → bool → (float → float → float) → option buffer.

(** C8.  [matrixVectorBinaryDivSkipZero] hands the engine one combining
    function [op], applied to a matrix element [a] and the vector entry [b]
    the engine pairs it with: when [b < 1e-10], [op a b] is [0] if
    [returnZero] is set and [a] otherwise; else it is [a / b].  For the
    vector entry [0] the element is thus kept when [returnZero = false] and
    becomes [0] when [returnZero = true]. *)
Theorem divSkipZero_rule (data vec : buffer) n_row n_col rowMajor
    (returnZero : bool) :
  ∃ op : float → float → float,
    matrixVectorBinaryDivSkipZero matrixVectorOp data vec n_row n_col
      rowMajor returnZero
    = matrixVectorOp data vec n_col n_row rowMajor op
    ∧ (∀ a b, op a b = if (b <? 1e-10)%float
                       then (if returnZero then 0%float else a)
                       else (a / b)%float)
    ∧ (∀ a, op a 0%float = if returnZero then 0%float else a).
Proof.
  destruct returnZero.
  - exists divSkipZero_zero_op. done.
  - exists divSkipZero_keep_op. done.
Qed.

(** C9.  The matrix-vector [setSmallValuesZero] does not depend on its
    [thres] argument: whatever the threshold, the engine is called with the
    layout flag [false] and with the combining function that compares the
    vector entry with the constant [1e-10]. *)
Theorem setSmallValuesZero_vec_ignores_thres (inout vec : buffer) n_row n_col
    (t1 t2 : float) :
  setSmallValuesZero_vec matrixVectorOp inout vec n_row n_col t1
  = setSmallValuesZero_vec matrixVectorOp inout vec n_row n_col t2
  ∧ setSmallValuesZero_vec matrixVectorOp inout vec n_row n_col t1
    = matrixVectorOp inout vec n_col n_row false maskSmall_op
  ∧ (∀ a b, maskSmall_op a b
            = if (b <? 1e-10)%float then 0%float else a).
Proof. done. Qed.

End MatrixVectorProperties.

(** The same two operators on the broadcast engine of the specification,
    element by element. *)

Lemma length_broadcast op pick n matrix vec :
  length (broadcast op pick n matrix vec) = length matrix.
Proof. apply length_imap. Qed.

Lemma lookup_broadcast op pick n (matrix vec : buffer) i :
  broadcast op pick n matrix vec !! i
  = (λ a, if decide (i < n) then from_option (op a) a (vec !! pick i) else a)
    <$> matrix !! i.
Proof. unfold broadcast. by rewrite list_lookup_imap. Qed.

Lemma broadcast_engine_spec vec_index (matrix vec : buffer) D N rowMajor op :
  N * D ≤ length matrix →
  (∀ i, i < N * D → vec_index D N rowMajor i < length vec) →
  broadcast_engine vec_index matrix vec D N rowMajor op
  = Some (broadcast op (vec_index D N rowMajor) (N * D) matrix vec).
Proof.
  intros Hmat Hvec. unfold broadcast_engine.
  set (pick := vec_index D N rowMajor) in *. set (n := N * D) in *.
  destruct (for_each_invariant
    (λ k d, k ≤ n ∧ d = broadcast op pick k matrix vec) 0 n
    (λ idx d, a ← load d idx; b ← load vec (pick idx); store d idx (op a b))
    matrix) as (d & Hrun & _ & ->); [ | | done].
  - simpl. split; [lia|]. apply list_eq. intros i. rewrite lookup_broadcast.
    by destruct (matrix !! i).
  - intros k d Hk Hinv. simpl in Hinv. destruct Hinv as [_ ->]. simpl.
    destruct (lookup_lt_is_Some_2 matrix k) as [a Ha]; [lia|].
    destruct (lookup_lt_is_Some_2 vec (pick k)) as [b Hb]; [by apply Hvec|].
    exists (broadcast op pick (S k) matrix vec). split; [|split; [lia|done]].
    unfold load, store. rewrite lookup_broadcast, Ha, Hb. simpl.
    rewrite decide_True by (rewrite length_broadcast; lia).
    rewrite decide_False by lia.
    f_equal. apply list_eq. intros i.
    rewrite list_lookup_insert, length_broadcast, !lookup_broadcast.
    destruct (decide (k = i)) as [<-|Hne].
    + rewrite decide_True by (split; [done|lia]).
      rewrite Ha, Hb. simpl. by rewrite decide_True by lia.
    + rewrite decide_False by tauto.
      destruct (matrix !! i); simpl; [|done].
      repeat case_decide; (done || lia).
Qed.

Lemma divSkipZero_broadcast vec_index (data vec : buffer) n_row n_col
    rowMajor (returnZero : bool) :
  n_row * n_col ≤ length data →
  (∀ i, i < n_row * n_col → vec_index n_col n_row rowMajor i < length vec) →
  ∃ res,
    matrixVectorBinaryDivSkipZero (broadcast_engine vec_index) data vec
      n_row n_col rowMajor returnZero = Some res
    ∧ ∀ i a b, i < n_row * n_col → data !! i = Some a →
        vec !! vec_index n_col n_row rowMajor i = Some b →
        res !! i = Some (if (b <? 1e-10)%float
                         then (if returnZero then 0%float else a)
                         else (a / b)%float).
Proof.
  intros Hdata Hvec. unfold matrixVectorBinaryDivSkipZero.
  destruct returnZero; rewrite broadcast_engine_spec by done;
    (eexists; split; [done|]);
    intros i a b Hi Ha Hb; rewrite lookup_broadcast, Ha, Hb; simpl;
    by rewrite decide_True by done.
Qed.

(** The vector entry of a position taken to be that of its block of [D]
    consecutive cells. *)
Example divSkipZero_keep_run :
  matrixVectorBinaryDivSkipZero (broadcast_engine (λ D _ _ idx, idx / D))
    [1; 2; 3; 4]%float [0; 2]%float 2 2 true false
  = Some [1; 2; 1.5; 2]%float.
Proof. by vm_compute. Qed.

Example divSkipZero_zero_run :
  matrixVectorBinaryDivSkipZero (broadcast_engine (λ D _ _ idx, idx / D))
    [1; 2; 3; 4]%float [0; 2]%float 2 2 true true
  = Some [0; 0; 1.5; 2]%float.
Proof. by vm_compute. Qed.

(** ** The order of binary64

    The comparisons of [float] are specified on [spec_float]
    ([ltb_spec], [leb_spec], [opp_spec]); the facts the scan of [signFlip]
    relies on are proved there by cases. *)

Ltac compare_cases :=
  repeat match goal with
  | H : context [Z.compare ?a ?b] |- _ => destruct (Z.compare_spec a b)
  | |- context [Z.compare ?a ?b] => destruct (Z.compare_spec a b)
  | H : context [Pos.compare ?a ?b] |- _ => destruct (Pos.compare_spec a b)
  | |- context [Pos.compare ?a ?b] => destruct (Pos.compare_spec a b)
  end.

Ltac spec_float_cases :=
  intros;
  repeat match goal with
  | x : spec_float |- _ => destruct x as [[]|[]| |[] ? ?]
  end;
  simpl in *; try done;
  change (Pos.compare_cont Eq) with Pos.compare in *;
  compare_cases; simpl in *; (done || lia).

Lemma SFltb_irrefl x : SFltb x x = false.
Proof. unfold SFltb, SFcompare. spec_float_cases. Qed.

Lemma SFltb_trans x y z :
  SFltb x y = true → SFltb y z = true → SFltb x z = true.
Proof. unfold SFltb, SFcompare. spec_float_cases. Qed.

Lemma SFltb_leb_trans x y z :
  SFltb x y = true → SFleb y z = true → SFltb x z = true.
Proof. unfold SFltb, SFleb, SFcompare. spec_float_cases. Qed.

Lemma ltb_irrefl x : (x <? x)%float = false.
Proof. rewrite ltb_spec. apply SFltb_irrefl. Qed.

Lemma ltb_trans x y z :
  (x <? y)%float = true → (y <? z)%float = true → (x <? z)%float = true.
Proof. rewrite !ltb_spec. apply SFltb_trans. Qed.

Lemma ltb_leb_trans x y z :
  (x <? y)%float = true → (y <=? z)%float = true → (x <? z)%float = true.
Proof. rewrite !ltb_spec, leb_spec. apply SFltb_leb_trans. Qed.

Lemma SFltb_opp_neg x :
  SFltb x (S754_zero false) = true → SFltb (SFopp x) (S754_zero false) = false.
Proof. unfold SFltb, SFcompare. spec_float_cases. Qed.

Lemma SFleb_ltb_total x y :
  SFltb (S754_zero false) x = true → SFltb (S754_zero false) y = true →
  SFleb y x = false → SFltb x y = true.
Proof. unfold SFleb, SFltb, SFcompare. spec_float_cases. Qed.

Lemma SFmagnitude_opp_ltb x y :
  SFltb (SFmagnitude (SFopp x)) (SFmagnitude (SFopp y))
  = SFltb (SFmagnitude x) (SFmagnitude y).
Proof. unfold SFmagnitude, SFltb, SFcompare. spec_float_cases. Qed.

Lemma SFmagnitude_opp_leb x y :
  SFleb (SFmagnitude (SFopp x)) (SFmagnitude (SFopp y))
  = SFleb (SFmagnitude x) (SFmagnitude y).
Proof. unfold SFmagnitude, SFleb, SFltb, SFcompare. spec_float_cases. Qed.

Lemma SFmagnitude_opp_pos x :
  SFltb (S754_zero false) (SFmagnitude (SFopp x))
  = SFltb (S754_zero false) (SFmagnitude x).
Proof. unfold SFmagnitude, SFltb, SFcompare. spec_float_cases. Qed.

Lemma Prim2SF_zero : Prim2SF 0 = S754_zero false.
Proof. reflexivity. Qed.

Lemma Prim2SF_magnitude x : Prim2SF (magnitude x) = SFmagnitude (Prim2SF x).
Proof.
  unfold magnitude, SFmagnitude. rewrite ltb_spec, Prim2SF_zero.
  destruct (SFltb _ _); [apply opp_spec|done].
Qed.

Lemma ltb_opp_neg x : (x <? 0)%float = true → (- x <? 0)%float = false.
Proof. rewrite !ltb_spec, opp_spec, Prim2SF_zero. apply SFltb_opp_neg. Qed.

Lemma leb_ltb_total x y :
  (0 <? x)%float = true → (0 <? y)%float = true →
  (y <=? x)%float = false → (x <? y)%float = true.
Proof. rewrite !ltb_spec, leb_spec, Prim2SF_zero. apply SFleb_ltb_total. Qed.

Lemma magnitude_opp_ltb x y :
  (magnitude (- x) <? magnitude (- y))%float
  = (magnitude x <? magnitude y)%float.
Proof.
  rewrite !ltb_spec, !Prim2SF_magnitude, !opp_spec. apply SFmagnitude_opp_ltb.
Qed.

Lemma magnitude_opp_leb x y :
  (magnitude (- x) <=? magnitude (- y))%float
  = (magnitude x <=? magnitude y)%float.
Proof.
  rewrite !leb_spec, !Prim2SF_magnitude, !opp_spec. apply SFmagnitude_opp_leb.
Qed.

Lemma magnitude_opp_pos x :
  (0 <? magnitude (- x))%float = (0 <? magnitude x)%float.
Proof.
  rewrite !ltb_spec, !Prim2SF_magnitude, !opp_spec, Prim2SF_zero.
  apply SFmagnitude_opp_pos.
Qed.

(** A magnitude is never negative, and is its own magnitude. *)
Lemma magnitude_not_neg x : (magnitude x <? 0)%float = false.
Proof.
  unfold magnitude. destruct (x <? 0)%float eqn:Hx; [|done].
  by apply ltb_opp_neg.
Qed.

Lemma magnitude_idem x : magnitude (magnitude x) = magnitude x.
Proof. unfold magnitude at 1. by rewrite magnitude_not_neg. Qed.

(** ** signFlip *)

(** A column of zeros never raises the running maximum: the scan ends
    with [max = 0.0] and [max_index = 0], its initial values. *)
Lemma signFlip_scan_zero_column (inout : buffer) d_i m :
  (∀ i, d_i ≤ i < d_i + m →
     inout !! i = Some 0%float ∨ inout !! i = Some (-0)%float) →
  signFlip_scan inout d_i m = Some (0%float, 0).
Proof.
  intros Hzero. unfold signFlip_scan.
  destruct (for_each_invariant
    (λ (_ : nat) (st : float * nat), st = (0%float, 0)) d_i m
    (λ i st,
       let '(max, max_index) := st in
       x ← load inout i;
       let val := if (x <? 0)%float then (- x)%float else x in
       if (max <? val)%float then Some (val, i) else Some (max, max_index))
    (0%float, 0)) as (st & Hrun & ->); [done| |done].
  intros k st Hk ->. exists (0%float, 0). split; [|done].
  unfold load. by destruct (Hzero (d_i + k)) as [-> | ->]; [lia| |].
Qed.

(** The scan loop, in general: it succeeds on a column inside the buffer and
    ends in a state described by [scanned]. *)
Lemma signFlip_scan_spec (b : buffer) d_i m :
  d_i + m ≤ length b →
  ∃ st, signFlip_scan b d_i m = Some st ∧ scanned b d_i m st.
Proof.
  intros Hlen. unfold signFlip_scan.
  apply (for_each_invariant (λ k st, scanned b d_i k st)).
  { split; [intros; lia|by left]. }
  intros k [mx j] Hk [Hbound Hrec].
  destruct (lookup_lt_is_Some_2 b (d_i + k)) as [x Hx]; [lia|].
  unfold load. rewrite Hx. simpl. fold (magnitude x).
  destruct (mx <? magnitude x)%float eqn:Hup; eexists; (split; [done|]);
    split.
  - intros i y Hi Hy. destruct (decide (i = d_i + k)) as [->|Hne].
    + replace y with x by congruence. apply ltb_irrefl.
    + destruct (magnitude x <? magnitude y)%float eqn:Hlt; [|done].
      rewrite <- (Hbound i y); [|lia|done]. symmetry.
      by apply (ltb_trans _ (magnitude x)).
  - right. exists x. split; [lia|]. split; [done|]. split; [done|]. split.
    + destruct Hrec as [[-> _]|(xj & _ & _ & _ & Hpos & _)]; [done|].
      by apply (ltb_trans _ mx).
    + intros i y Hi Hy.
      destruct (magnitude x <=? magnitude y)%float eqn:Hle; [|done].
      rewrite <- (Hbound i y); [|lia|done]. symmetry.
      by apply (ltb_leb_trans _ (magnitude x)).
  - intros i y Hi Hy. destruct (decide (i = d_i + k)) as [->|Hne].
    + by replace y with x by congruence.
    + apply (Hbound i); [lia|done].
  - destruct Hrec as [?|(xj & ? & ? & ? & ? & ?)]; [by left|].
    right. exists xj. repeat split; (done || lia).
Qed.

(** The index the scan returns is its initial value [0] or a cell of the
    scanned column. *)
Lemma signFlip_scan_index (inout : buffer) d_i m mx j :
  signFlip_scan inout d_i m = Some (mx, j) →
  j = 0 ∨ d_i ≤ j < d_i + m.
Proof.
  unfold signFlip_scan. revert mx j.
  induction m as [|m IH]; intros mx j; [intros [= _ <-]; by left|].
  rewrite counting_snoc, for_each_app.
  destruct (for_each (counting d_i m) _ _) as [[mx' j']|] eqn:Hrun;
    [simpl|done].
  destruct (load inout (d_i + m)) as [x|]; [simpl|done].
  destruct (IH _ _ eq_refl) as [->|?];
    destruct (mx' <? _)%float; intros [= _ <-]; lia.
Qed.

Lemma signFlip_negate_spec (inout : buffer) d_i m :
  d_i + m ≤ length inout →
  signFlip_negate inout d_i m = Some (map_range PrimFloat.opp d_i m inout).
Proof. apply inplace_range. Qed.

(** The body for one column, in general: it flips on the sign of the cell
    the scan recorded. *)
Lemma signFlip_col_spec (b : buffer) m idx :
  0 < m → idx * m + m ≤ length b →
  ∃ mx j x,
    scanned b (idx * m) m (mx, j) ∧ b !! j = Some x
    ∧ signFlip_col m idx b
      = Some (if (x <? 0)%float
              then map_range PrimFloat.opp (idx * m) m b else b).
Proof.
  intros Hm Hlen.
  destruct (signFlip_scan_spec b (idx * m) m Hlen) as ([mx j] & Hscan & Hst).
  destruct (signFlip_scan_index _ _ _ _ _ Hscan) as [Hj|Hj].
  all: destruct (lookup_lt_is_Some_2 b j) as [x Hx]; [lia|].
  all: exists mx, j, x; split; [done|]; split; [done|].
  all: unfold signFlip_col; rewrite Hscan; simpl; unfold load; rewrite Hx.
  all: simpl; destruct (x <? 0)%float; [by apply signFlip_negate_spec|done].
Qed.

(** A column with a cell of magnitude above zero is handled on its own:
    the body finds its first cell of largest magnitude and negates the
    column exactly when that cell is negative. *)
Lemma signFlip_col_largest (b : buffer) m idx :
  0 < m → idx * m + m ≤ length b → has_magnitude b (idx * m) m →
  ∃ j xj,
    first_largest b (idx * m) m j xj
    ∧ (0 <? magnitude xj)%float = true
    ∧ signFlip_col m idx b
      = Some (if (xj <? 0)%float
              then map_range PrimFloat.opp (idx * m) m b else b).
Proof.
  intros Hm Hlen (i & x & Hi & Hx & Hpos).
  destruct (signFlip_col_spec b m idx Hm Hlen)
    as (mx & j & xj & [Hbound Hrec] & Hxj & Hcol).
  destruct Hrec as [[-> _]|(xj' & Hj & Hxj' & -> & Hpos' & Hties)].
  { rewrite (Hbound i x) in Hpos; done. }
  replace xj' with xj in * by congruence.
  exists j, xj. split; [|done]. split; [done|]. split; [done|]. by split.
Qed.

(** [first_largest] and [has_magnitude] look at the cells of the range
    only. *)
Lemma first_largest_agree (b b' : buffer) first n j xj :
  (∀ i, first ≤ i < first + n → b' !! i = b !! i) →
  first_largest b first n j xj → first_largest b' first n j xj.
Proof.
  intros Hagree (Hj & Hxj & Hpos & Hmax & Hties).
  split; [done|]. split; [by rewrite Hagree|]. split; [done|]. split.
  - intros i x Hi Hx. apply (Hmax i); [done|]. by rewrite <- Hagree.
  - intros i x Hi Hx. apply (Hties i); [done|]. by rewrite <- Hagree by lia.
Qed.

Lemma has_magnitude_agree (b b' : buffer) first n :
  (∀ i, first ≤ i < first + n → b' !! i = b !! i) →
  has_magnitude b first n → has_magnitude b' first n.
Proof.
  intros Hagree (i & x & Hi & Hx & Hpos).
  exists i, x. by rewrite Hagree.
Qed.

Lemma counting_schedule n_cols : column_schedule n_cols (counting 0 n_cols).
Proof.
  split; [apply NoDup_seq|]. intros idx. unfold counting.
  rewrite elem_of_seq. lia.
Qed.

(** The whole of [signFlip], when every column has a cell of magnitude
    above zero, with the column bodies run in any order: every column is
    handled on its own, from its own first cell of largest magnitude, and
    the cells after the matrix are not touched. *)
Lemma signFlip_sched_columns sched (inout : buffer) n_rows n_cols :
  column_schedule n_cols sched →
  0 < n_rows → n_rows * n_cols ≤ length inout →
  (∀ idx, idx < n_cols → has_magnitude inout (idx * n_rows) n_rows) →
  ∃ res,
    signFlip_sched sched inout n_rows = Some res
    ∧ length res = length inout
    ∧ (∀ idx, idx < n_cols →
         ∃ j xj,
           first_largest inout (idx * n_rows) n_rows j xj
           ∧ (0 <? magnitude xj)%float = true
           ∧ ∀ i x, idx * n_rows ≤ i < idx * n_rows + n_rows →
               inout !! i = Some x →
               res !! i = Some (if (xj <? 0)%float then (- x)%float else x))
    ∧ (∀ i, n_rows * n_cols ≤ i → res !! i = inout !! i).
Proof.
  intros [Hnodup Hsched] Hm Hlen Hcols. set (m := n_rows) in *.
  destruct (for_each_list_invariant
    (λ done b,
       length b = length inout
       ∧ (∀ i, (∀ idx, idx ∈ done → ¬ idx * m ≤ i < idx * m + m) →
            b !! i = inout !! i)
       ∧ ∀ idx, idx ∈ done →
           ∃ j xj,
             first_largest inout (idx * m) m j xj
             ∧ (0 <? magnitude xj)%float = true
             ∧ ∀ i x, idx * m ≤ i < idx * m + m → inout !! i = Some x →
                 b !! i = Some (if (xj <? 0)%float then (- x)%float else x))
    sched (signFlip_col m) inout)
    as (res & Hrun & Hres_len & Hrest & Hdone).
  { simpl. split; [done|]. split; [done|]. by intros idx ?%elem_of_nil. }
  { intros pre k post b Hsplit (Hb_len & Hb_rest & Hb_done). simpl.
    assert (k < n_cols) as Hk.
    { apply Hsched. rewrite Hsplit. rewrite elem_of_app, elem_of_cons. auto. }
    assert (k ∉ pre) as Hfresh.
    { rewrite Hsplit in Hnodup. apply NoDup_app in Hnodup as (_ & Hdisj & _).
      intros Hin. apply (Hdisj k Hin). by left. }
    assert (k * m + m ≤ length b) as Hcol_len by (rewrite Hb_len; nia).
    assert (∀ i, k * m ≤ i < k * m + m → b !! i = inout !! i) as Hagree.
    { intros i Hi. apply Hb_rest. intros idx Hidx Hi'.
      apply Hfresh. replace k with idx by nia. done. }
    destruct (signFlip_col_largest b m k Hm Hcol_len)
      as (j & xj & Hfirst & Hpos & Hcol).
    { apply (has_magnitude_agree inout); [done|]. by apply Hcols. }
    eexists. split; [done|]. split; [|split].
    - destruct (xj <? 0)%float; [by rewrite length_map_range|done].
    - intros i Hi. rewrite <- Hb_rest.
      2:{ intros idx Hidx. apply Hi. rewrite elem_of_app. by left. }
      destruct (xj <? 0)%float; [|done].
      rewrite lookup_map_range. destruct (b !! i); [simpl|done].
      rewrite decide_False; [done|].
      apply Hi. rewrite elem_of_app, list_elem_of_singleton. by right.
    - intros idx [Hidx| ->%list_elem_of_singleton]%elem_of_app.
      + destruct (Hb_done idx Hidx) as (j' & xj' & Hfirst' & Hpos' & Hcells).
        exists j', xj'. split; [done|]. split; [done|].
        intros i x Hi Hx. rewrite <- (Hcells i x Hi Hx).
        destruct (xj <? 0)%float; [|done].
        rewrite lookup_map_range. destruct (b !! i); [simpl|done].
        rewrite decide_False; [done|].
        intros Hi'. apply Hfresh. replace k with idx by nia. done.
      + exists j, xj. split.
        { apply (first_largest_agree b); [|done].
          intros i Hi. symmetry. by apply Hagree. }
        split; [done|]. intros i x Hi Hx. rewrite <- Hagree in Hx by done.
        destruct (xj <? 0)%float; [|done].
        rewrite lookup_map_range, Hx. simpl. by rewrite decide_True by done. }
  exists res. split; [done|]. split; [done|]. split.
  - intros idx Hidx. apply Hdone. by apply Hsched.
  - intros i Hi. apply Hrest. intros idx Hidx%Hsched. nia.
Qed.

(** Two first cells of largest magnitude of one range coincide. *)
Lemma first_largest_unique (b : buffer) first n j j' xj xj' :
  first_largest b first n j xj → first_largest b first n j' xj' →
  (0 <? magnitude xj)%float = true → (0 <? magnitude xj')%float = true →
  j = j'.
Proof.
  intros (Hj & Hx & _ & Hmax & Hties) (Hj' & Hx' & _ & Hmax' & Hties')
    Hpos Hpos'.
  destruct (lt_eq_lt_dec j j') as [[Hlt|Heq]|Hlt]; [|done|].
  - specialize (Hties' j xj). specialize (Hmax j' xj').
    rewrite (leb_ltb_total (magnitude xj) (magnitude xj')) in Hmax;
      [discriminate Hmax; (done || lia) |done|done|apply Hties'; (done || lia)].
  - specialize (Hties j' xj'). specialize (Hmax' j xj).
    rewrite (leb_ltb_total (magnitude xj') (magnitude xj)) in Hmax';
      [discriminate Hmax'; (done || lia) |done|done|apply Hties; (done || lia)].
Qed.

(** Negating a range, or keeping it, moves no first cell of largest
    magnitude. *)
Lemma first_largest_flip (flip : bool) (b b' : buffer) first n j xj :
  length b' = length b →
  (∀ i x, first ≤ i < first + n → b !! i = Some x →
     b' !! i = Some (if flip then (- x)%float else x)) →
  first_largest b first n j xj →
  first_largest b' first n j (if flip then (- xj)%float else xj).
Proof.
  intros Hlen Hcells (Hj & Hx & Hpos & Hmax & Hties).
  assert (∀ i x', first ≤ i < first + n → b' !! i = Some x' →
            ∃ x, b !! i = Some x ∧ x' = if flip then (- x)%float else x)
    as Hinv.
  { intros i x' Hi Hx'.
    destruct (lookup_lt_is_Some_2 b i) as [x Hbx].
    { rewrite <- Hlen. by eapply lookup_lt_Some. }
    exists x. split; [done|]. apply Hcells in Hbx; [|done]. congruence. }
  split; [done|]. split; [by apply Hcells|]. split.
  { destruct flip; [by rewrite magnitude_opp_pos|done]. }
  split.
  - intros i x' Hi Hx'. destruct (Hinv i x' Hi Hx') as (x & Hbx & ->).
    destruct flip; [rewrite magnitude_opp_ltb|]; by apply (Hmax i).
  - intros i x' Hi Hx'. destruct (Hinv i x') as (x & Hbx & ->); [lia|done|].
    destruct flip; [rewrite magnitude_opp_leb|]; by apply (Hties i).
Qed.

(** When every column has a cell of magnitude above zero, one call settles
    the matrix, whatever the order of the column bodies in either call: in
    every column of the result the first cell of largest magnitude is not
    negative, and a second call returns the result of the first. *)
Lemma signFlip_sched_settles sched1 sched2 (inout : buffer) n_rows n_cols :
  column_schedule n_cols sched1 → column_schedule n_cols sched2 →
  0 < n_rows → n_rows * n_cols ≤ length inout →
  (∀ idx, idx < n_cols → has_magnitude inout (idx * n_rows) n_rows) →
  ∃ res,
    signFlip_sched sched1 inout n_rows = Some res
    ∧ (∀ idx, idx < n_cols →
         ∃ j xj, first_largest res (idx * n_rows) n_rows j xj
                 ∧ (xj <? 0)%float = false)
    ∧ signFlip_sched sched2 res n_rows = Some res.
Proof.
  intros Hsched1 Hsched2 Hm Hlen Hcols.
  destruct (signFlip_sched_columns sched1 inout n_rows n_cols
              Hsched1 Hm Hlen Hcols)
    as (res & Hrun & Hres_len & Hres_cols & Hres_rest).
  assert (∀ idx, idx < n_cols →
            ∃ j xj, first_largest res (idx * n_rows) n_rows j xj
                    ∧ (0 <? magnitude xj)%float = true
                    ∧ (xj <? 0)%float = false) as Hsettled.
  { intros idx Hidx.
    destruct (Hres_cols idx Hidx) as (j & xj & Hfirst & Hpos & Hcells).
    exists j, (magnitude xj). split.
    - by apply (first_largest_flip (xj <? 0)%float inout).
    - rewrite magnitude_idem. split; [done|apply magnitude_not_neg]. }
  exists res. split; [done|]. split.
  { intros idx Hidx. destruct (Hsettled idx Hidx) as (j & xj & ? & ? & ?).
    by exists j, xj. }
  destruct (signFlip_sched_columns sched2 res n_rows n_cols Hsched2 Hm)
    as (res2 & Hrun2 & Hlen2 & Hcols2 & Hrest2).
  { by rewrite Hres_len. }
  { intros idx Hidx.
    destruct (Hsettled idx Hidx) as (j & xj & (Hj & Hxj & _) & Hpos & _).
    by exists j, xj. }
  rewrite Hrun2. f_equal. apply list_eq. intros i.
  destruct (decide (i < n_rows * n_cols)) as [Hi|Hi]; [|apply Hrest2; lia].
  destruct (lookup_lt_is_Some_2 res i) as [x Hx]; [lia|]. rewrite Hx.
  assert (i / n_rows < n_cols) as Hidx
    by (apply Nat.Div0.div_lt_upper_bound; lia).
  assert (i / n_rows * n_rows ≤ i < i / n_rows * n_rows + n_rows) as Hrange.
  { pose proof (Nat.div_mod_eq i n_rows).
    pose proof (Nat.mod_upper_bound i n_rows). lia. }
  destruct (Hcols2 _ Hidx) as (j2 & xj2 & Hfirst2 & Hpos2 & Hcells2).
  destruct (Hsettled _ Hidx) as (j & xj & Hfirst & Hpos & Hnn).
  assert (j2 = j) as -> by (by eapply first_largest_unique).
  assert (xj2 = xj) as ->
    by (destruct Hfirst as (_ & ? & _), Hfirst2 as (_ & ? & _); congruence).
  by rewrite (Hcells2 i x Hrange Hx), Hnn.
Qed.

(** The same for [signFlip] itself. *)
Lemma signFlip_columns (inout : buffer) n_rows n_cols :
  0 < n_rows → n_rows * n_cols ≤ length inout →
  (∀ idx, idx < n_cols → has_magnitude inout (idx * n_rows) n_rows) →
  ∃ res,
    signFlip inout n_rows n_cols = Some res
    ∧ length res = length inout
    ∧ (∀ idx, idx < n_cols →
         ∃ j xj,
           first_largest inout (idx * n_rows) n_rows j xj
           ∧ (0 <? magnitude xj)%float = true
           ∧ ∀ i x, idx * n_rows ≤ i < idx * n_rows + n_rows →
               inout !! i = Some x →
               res !! i = Some (if (xj <? 0)%float then (- x)%float else x))
    ∧ (∀ i, n_rows * n_cols ≤ i → res !! i = inout !! i).
Proof. apply signFlip_sched_columns, counting_schedule. Qed.

Lemma signFlip_settles (inout : buffer) n_rows n_cols :
  0 < n_rows → n_rows * n_cols ≤ length inout →
  (∀ idx, idx < n_cols → has_magnitude inout (idx * n_rows) n_rows) →
  ∃ res,
    signFlip inout n_rows n_cols = Some res
    ∧ (∀ idx, idx < n_cols →
         ∃ j xj, first_largest res (idx * n_rows) n_rows j xj
                 ∧ (xj <? 0)%float = false)
    ∧ signFlip res n_rows n_cols = Some res.
Proof. apply signFlip_sched_settles; apply counting_schedule. Qed.

(** The scenario of the specification meets the conditions of
    [signFlip_settles]. *)
Example signFlip_settles_run :
  ∃ res,
    signFlip [1; -5; 3; 2; 1; -0.5]%float 3 2 = Some res
    ∧ (∀ idx, idx < 2 →
         ∃ j xj, first_largest res (idx * 3) 3 j xj
                 ∧ (xj <? 0)%float = false)
    ∧ signFlip res 3 2 = Some res.
Proof.
  apply signFlip_settles; [lia|simpl; lia|].
  intros [|[|idx]] Hidx; [| |lia].
  - exists 0, 1%float. split; [simpl; lia|]. by split.
  - exists 3, 2%float. split; [simpl; lia|]. by split.
Qed.

(** The body of [signFlip] for a column [idx] whose [m > 0] elements
    are all zero, on whatever buffer it runs: the scan leaves [max = 0.0]
    and [max_index = 0], the absolute index of the first element of the
    matrix; the decision to flip is the sign test of that element
    [inout[0]], as the body reads it; and when [inout[0] < 0] every cell of
    the column is negated, so that each [0] becomes [-0] (and each [-0]
    becomes [0]) while the other cells keep their contents. *)
Theorem signFlip_zero_column_reads_first (inout : buffer) m idx x0 :
  0 < m →
  (∀ i, idx * m ≤ i < idx * m + m →
     inout !! i = Some 0%float ∨ inout !! i = Some (-0)%float) →
  inout !! 0 = Some x0 →
  signFlip_scan inout (idx * m) m = Some (0%float, 0)
  ∧ signFlip_col m idx inout
    = (if (x0 <? 0)%float
       then Some (map_range PrimFloat.opp (idx * m) m inout)
       else Some inout)
  ∧ ((x0 <? 0)%float = true →
       ∃ res, signFlip_col m idx inout = Some res
         ∧ length res = length inout
         ∧ (∀ i, idx * m ≤ i < idx * m + m →
              (inout !! i = Some 0%float → res !! i = Some (-0)%float)
              ∧ (inout !! i = Some (-0)%float → res !! i = Some 0%float))
         ∧ (∀ i, ¬ idx * m ≤ i < idx * m + m → res !! i = inout !! i)).
Proof.
  intros Hm Hzero H0.
  pose proof (signFlip_scan_zero_column _ _ _ Hzero) as Hscan.
  assert (idx * m + m ≤ length inout) as Hlen.
  { destruct (Hzero (idx * m + m - 1)) as [H|H]; [lia| |];
      apply lookup_lt_Some in H; lia. }
  assert (signFlip_col m idx inout
          = if (x0 <? 0)%float
            then Some (map_range PrimFloat.opp (idx * m) m inout)
            else Some inout) as Hcol.
  { unfold signFlip_col. rewrite Hscan. simpl. unfold load. rewrite H0. simpl.
    destruct (x0 <? 0)%float; [by apply signFlip_negate_spec|done]. }
  split; [done|]. split; [done|].
  intros Hneg. rewrite Hcol, Hneg. eexists. split; [done|].
  split; [apply length_map_range|]. split.
  - intros i Hi. rewrite lookup_map_range.
    split; intros ->; simpl; by rewrite decide_True by done.
  - intros i Hi. rewrite lookup_map_range.
    destruct (inout !! i); [simpl|done]. by rewrite decide_False by done.
Qed.

Lemma signFlip_zero_column_reads_first_witness :
  signFlip_scan [-1; 5; 0; 0]%float (1 * 2) 2 = Some (0%float, 0)
  ∧ signFlip_col 2 1 [-1; 5; 0; 0]%float
    = (if (-1 <? 0)%float
       then Some (map_range PrimFloat.opp (1 * 2) 2 [-1; 5; 0; 0]%float)
       else Some [-1; 5; 0; 0]%float)
  ∧ ((-1 <? 0)%float = true →
       ∃ res, signFlip_col 2 1 [-1; 5; 0; 0]%float = Some res
         ∧ length res = length [-1; 5; 0; 0]%float
         ∧ (∀ i, 1 * 2 ≤ i < 1 * 2 + 2 →
              ([-1; 5; 0; 0]%float !! i = Some 0%float
               → res !! i = Some (-0)%float)
              ∧ ([-1; 5; 0; 0]%float !! i = Some (-0)%float
                 → res !! i = Some 0%float))
         ∧ (∀ i, ¬ 1 * 2 ≤ i < 1 * 2 + 2 →
              res !! i = [-1; 5; 0; 0]%float !! i)).
Proof.
  apply (signFlip_zero_column_reads_first [-1; 5; 0; 0]%float 2 1 (-1)%float).
  - lia.
  - intros i Hi. left.
    destruct i as [|[|[|[|i]]]]; simpl in *; (reflexivity || lia).
  - reflexivity.
Defined.

(** The scenario of the specification: the first column has its largest
    magnitude at [-5] and is negated, the second at [2] and is kept. *)
Example signFlip_run :
  signFlip [1; -5; 3; 2; 1; -0.5]%float 3 2
  = Some [-1; 5; -3; 2; 1; -0.5]%float.
Proof. by vm_compute. Qed.

(** Among equal magnitudes the first one scanned decides. *)
Example signFlip_tie_run :
  signFlip [-2; 2; 2; -2]%float 2 2 = Some [2; -2; 2; -2]%float.
Proof. by vm_compute. Qed.

(** Which [inout[0]] the body of an all-zero column observes depends on
    whether the body of the first column has negated it already: here the
    first column is flipped, and the second one is negated only when its
    body runs first. *)
Example signFlip_schedule_run :
  signFlip_sched [0; 1] [-5; 1; 0; 0]%float 2 = Some [5; -1; 0; 0]%float
  ∧ signFlip_sched [1; 0] [-5; 1; 0; 0]%float 2 = Some [5; -1; -0; -0]%float.
Proof. split; by vm_compute. Qed.

Example neg_zero_is_not_zero :
  (-0)%float = PrimFloat.opp 0%float ∧ (-0)%float ≠ 0%float
  ∧ (-0 =? 0)%float = true ∧ (1 / -0)%float = neg_infinity.
Proof. repeat split; (reflexivity || discriminate). Qed.

(** C2, at a failing input.  The 2x2 column-major matrix with columns
    [[-1, 5]] and [[0, 0]]: in the second column the element of maximum
    absolute value is [0], which is not negative, so the column is to stay
    as it is.  [signFlip] negates it to [[-0, -0]]: its scan never updates
    [max_index], and the flip decision reads [inout[0] = -1], an element of
    the first column.  The first column is not flipped, so the result is the
    same when the second column's body runs before the first one's. *)
Theorem signFlip_flips_zero_column :
  signFlip [-1; 5; 0; 0]%float 2 2 = Some [-1; 5; -0; -0]%float
  ∧ signFlip_sched [1; 0] [-1; 5; 0; 0]%float 2 = Some [-1; 5; -0; -0]%float
  ∧ [-1; 5; -0; -0]%float ≠ [-1; 5; 0; 0]%float.
Proof. split; [by vm_compute|]. split; [by vm_compute|discriminate]. Qed.

(** C4, at a failing input.  On the same matrix a first call of [signFlip]
    turns the second column into [[-0, -0]], and a second call turns it back
    into [[0, 0]]: the second call changes two elements, and twice is not
    once.  Both calls give the same buffers when the second column's body
    runs before the first one's. *)
Theorem signFlip_twice_differs :
  signFlip [-1; 5; 0; 0]%float 2 2 = Some [-1; 5; -0; -0]%float
  ∧ signFlip [-1; 5; -0; -0]%float 2 2 = Some [-1; 5; 0; 0]%float
  ∧ signFlip_sched [1; 0] [-1; 5; 0; 0]%float 2 = Some [-1; 5; -0; -0]%float
  ∧ signFlip_sched [1; 0] [-1; 5; -0; -0]%float 2 = Some [-1; 5; 0; 0]%float
  ∧ (b ← signFlip [-1; 5; 0; 0]%float 2 2; signFlip b 2 2)
    ≠ signFlip [-1; 5; 0; 0]%float 2 2.
Proof.
  do 4 (split; [by vm_compute|]).
  vm_compute. discriminate.
Qed.

(** * Further properties *)

(** ** In place and out of place *)

(** An in-place loop leaves what the two-buffer loop writes over a copy of
    its input. *)
Lemma map_range_transfer g len (b : buffer) :
  map_range g 0 len b = transfer g len b b.
Proof.
  apply list_eq. intros i. rewrite lookup_map_range, lookup_transfer.
  destruct (b !! i) as [x|]; [simpl|done].
  repeat case_decide; (done || lia).
Qed.

Lemma map_range_lookup_lt g len (b : buffer) i x :
  i < len → b !! i = Some x → map_range g 0 len b !! i = Some (g x).
Proof.
  intros Hi Hx. rewrite lookup_map_range, Hx. simpl.
  by rewrite decide_True by lia.
Qed.

Lemma map_range_lookup_ge g len (b : buffer) i :
  len ≤ i → map_range g 0 len b !! i = b !! i.
Proof.
  intros Hi. rewrite lookup_map_range.
  destruct (b !! i); [simpl|done]. by rewrite decide_False by lia.
Qed.

Lemma transfer_lookup_lt g len (src dst : buffer) i x :
  i < len → len ≤ length dst → src !! i = Some x →
  transfer g len src dst !! i = Some (g x).
Proof.
  intros Hi Hdst Hx. rewrite lookup_transfer, Hx.
  destruct (lookup_lt_is_Some_2 dst i) as [y ->]; [lia|]. simpl.
  by rewrite decide_True by lia.
Qed.

Lemma transfer_lookup_ge g len (src dst : buffer) i :
  len ≤ i → transfer g len src dst !! i = dst !! i.
Proof.
  intros Hi. rewrite lookup_transfer.
  destruct (dst !! i); [simpl|done]. by rewrite decide_False by lia.
Qed.

(** ** power *)

Lemma power_spec inout scalar len :
  power inout scalar len
  = if decide (len ≤ length inout) then
      Some (map_range (λ x, x * x * scalar)%float 0 len inout)
    else None.
Proof. apply (inplace_prefix (λ x, x * x * scalar)%float). Qed.

Lemma power_out_spec (in_ out : buffer) scalar len :
  len ≤ length in_ → len ≤ length out →
  power_out in_ out scalar len
  = Some (transfer (λ x, x * x * scalar)%float len in_ out).
Proof. apply (outofplace_prefix (λ x, x * x * scalar)%float). Qed.

(** X1.  Both forms of [power] replace each of the first [len] elements
    [x] by [(x * x) * scalar], the two-buffer form reading [in] and writing
    [out]; no cell from [len] on is written, and the lengths are kept. *)
Theorem power_cells (inout in_ out : buffer) scalar len :
  len ≤ length inout → len ≤ length in_ → len ≤ length out →
  ∃ res res',
    power inout scalar len = Some res
    ∧ power_out in_ out scalar len = Some res'
    ∧ length res = length inout ∧ length res' = length out
    ∧ (∀ i x, i < len → inout !! i = Some x →
         res !! i = Some (x * x * scalar)%float)
    ∧ (∀ i x, i < len → in_ !! i = Some x →
         res' !! i = Some (x * x * scalar)%float)
    ∧ (∀ i, len ≤ i → res !! i = inout !! i ∧ res' !! i = out !! i).
Proof.
  intros Hinout Hin Hout. eexists _, _.
  split; [rewrite power_spec; by rewrite decide_True by done|].
  split; [by apply power_out_spec|].
  split; [apply length_map_range|]. split; [apply length_transfer|].
  split; [|split].
  - intros i x Hi Hx. by apply (map_range_lookup_lt (λ x, x * x * scalar)%float).
  - intros i x Hi Hx. by apply (transfer_lookup_lt (λ x, x * x * scalar)%float).
  - intros i Hi. split;
      [by apply map_range_lookup_ge | by apply transfer_lookup_ge].
Qed.

Lemma power_cells_witness :
  ∃ res res',
    power [3; -2; 0.5]%float 2%float 2 = Some res
    ∧ power_out [3; -2; 0.5]%float [7; 7; 7; 7]%float 2%float 2 = Some res'
    ∧ length res = 3 ∧ length res' = 4
    ∧ (∀ i x, i < 2 → [3; -2; 0.5]%float !! i = Some x →
         res !! i = Some (x * x * 2)%float)
    ∧ (∀ i x, i < 2 → [3; -2; 0.5]%float !! i = Some x →
         res' !! i = Some (x * x * 2)%float)
    ∧ (∀ i, 2 ≤ i →
         res !! i = [3; -2; 0.5]%float !! i
         ∧ res' !! i = [7; 7; 7; 7]%float !! i).
Proof.
  apply (power_cells [3; -2; 0.5]%float [3; -2; 0.5]%float
           [7; 7; 7; 7]%float 2%float 2); simpl; lia.
Defined.

Example power_run :
  power [3; -2; 0.5]%float 2%float 2 = Some [18; 8; 0.5]%float
  ∧ power_noscalar [3; -2; 0.5]%float 3 = Some [9; 4; 0.25]%float.
Proof. split; by vm_compute. Qed.

(** X2.  The in-place [power] gives the buffer the two-buffer [power]
    writes when [out] starts as a copy of [in]. *)
Theorem power_in_place_as_copy (inout : buffer) scalar len :
  len ≤ length inout →
  power inout scalar len = power_out inout inout scalar len.
Proof.
  intros Hlen. rewrite power_spec, power_out_spec by done.
  rewrite decide_True by done. by rewrite map_range_transfer.
Qed.

Lemma power_in_place_as_copy_witness :
  power [3; -2; 0.5]%float 2%float 2
  = power_out [3; -2; 0.5]%float [3; -2; 0.5]%float 2%float 2.
Proof. apply power_in_place_as_copy. simpl. lia. Defined.

(** ** seqRoot *)

Lemma seqRoot_spec inout scalar len :
  seqRoot inout scalar len
  = if decide (len ≤ length inout) then
      Some (map_range (λ x, PrimFloat.sqrt (x * scalar))%float 0 len inout)
    else None.
Proof. apply (inplace_prefix (λ x, PrimFloat.sqrt (x * scalar))%float). Qed.

Lemma seqRoot_out_body scalar (set_neg_zero : bool) (in_ d_dest : buffer) idx :
  (if set_neg_zero then
     x ← load in_ idx;
     if (x <? 0)%float then store d_dest idx 0%float
     else store d_dest idx (PrimFloat.sqrt (x * scalar))%float
   else
     x ← load in_ idx;
     store d_dest idx (PrimFloat.sqrt (x * scalar))%float)
  = (x ← load in_ idx;
     store d_dest idx
       (if set_neg_zero then
          if (x <? 0)%float then 0%float
          else PrimFloat.sqrt (x * scalar)%float
        else PrimFloat.sqrt (x * scalar)%float)).
Proof.
  destruct set_neg_zero; [|done].
  destruct (load in_ idx) as [x|]; [simpl|done].
  by destruct (x <? 0)%float.
Qed.

Lemma seqRoot_out_spec (in_ out : buffer) scalar len set_neg_zero :
  len ≤ length in_ → len ≤ length out →
  seqRoot_out in_ out scalar len set_neg_zero
  = Some (transfer
            (λ x, if set_neg_zero then
                    if (x <? 0)%float then 0%float
                    else PrimFloat.sqrt (x * scalar)%float
                  else PrimFloat.sqrt (x * scalar)%float) len in_ out).
Proof.
  intros Hin Hout. unfold seqRoot_out.
  rewrite <- (outofplace_prefix _ len in_ out) by done.
  apply for_each_ext. intros idx d_dest. apply seqRoot_out_body.
Qed.

(** X3.  The two-buffer [seqRoot] with [set_neg_zero] writes [0] for every
    element [x < 0] of the first [len] and [sqrt (x * scalar)] for every
    other one: the test is on [x], not on the product, and [-0] and NaN are
    not clamped.  Without [set_neg_zero] it writes [sqrt (x * scalar)] for
    every element.  Cells of [out] from [len] on are not written. *)
Theorem seqRoot_out_clamp (in_ out : buffer) scalar len (set_neg_zero : bool) :
  len ≤ length in_ → len ≤ length out →
  ∃ res,
    seqRoot_out in_ out scalar len set_neg_zero = Some res
    ∧ length res = length out
    ∧ (∀ i x, i < len → in_ !! i = Some x →
         res !! i = Some (if set_neg_zero then
                            if (x <? 0)%float then 0%float
                            else PrimFloat.sqrt (x * scalar)%float
                          else PrimFloat.sqrt (x * scalar)%float))
    ∧ (∀ i, len ≤ i → res !! i = out !! i).
Proof.
  intros Hin Hout. eexists.
  split; [by apply seqRoot_out_spec|].
  split; [apply length_transfer|]. split.
  - intros i x Hi Hx. by rewrite (transfer_lookup_lt _ len in_ out i x).
  - intros i Hi. by apply transfer_lookup_ge.
Qed.

Lemma seqRoot_out_clamp_witness :
  ∃ res,
    seqRoot_out [4; -9; 2.25]%float [7; 7; 7; 7]%float 4%float 3 true = Some res
    ∧ length res = 4
    ∧ (∀ i x, i < 3 → [4; -9; 2.25]%float !! i = Some x →
         res !! i = Some (if true then
                            if (x <? 0)%float then 0%float
                            else PrimFloat.sqrt (x * 4)%float
                          else PrimFloat.sqrt (x * 4)%float))
    ∧ (∀ i, 3 ≤ i → res !! i = [7; 7; 7; 7]%float !! i).
Proof.
  apply (seqRoot_out_clamp [4; -9; 2.25]%float [7; 7; 7; 7]%float 4%float 3
           true); simpl; lia.
Defined.

Example seqRoot_out_run :
  seqRoot_out [4; -9; 2.25]%float [7; 7; 7; 7]%float 4%float 3 true
  = Some [4; 0; 3; 7]%float
  ∧ seqRoot_out [4; -9; 2.25]%float [7; 7; 7; 7]%float 4%float 3 false
    = Some [4; nan; 3; 7]%float
  ∧ seqRoot_out [4; -0; 9]%float [7; 7; 7]%float (-1)%float 3 true
    = Some [nan; 0; nan]%float.
Proof. repeat split; by vm_compute. Qed.

(** X4.  The in-place [seqRoot] gives the buffer the two-buffer [seqRoot]
    writes without [set_neg_zero] when [out] starts as a copy of [in]: the
    in-place form never clamps. *)
Theorem seqRoot_in_place_as_copy (inout : buffer) scalar len :
  len ≤ length inout →
  seqRoot inout scalar len = seqRoot_out inout inout scalar len false.
Proof.
  intros Hlen. rewrite seqRoot_spec, seqRoot_out_spec by done.
  rewrite decide_True by done. by rewrite map_range_transfer.
Qed.

Lemma seqRoot_in_place_as_copy_witness :
  seqRoot [4; -9; 2.25]%float 4%float 2
  = seqRoot_out [4; -9; 2.25]%float [4; -9; 2.25]%float 4%float 2 false.
Proof. apply seqRoot_in_place_as_copy. simpl. lia. Defined.

(** ** Thresholds *)

Lemma SFleb_trans x y z :
  SFleb x y = true → SFleb y z = true → SFleb x z = true.
Proof. unfold SFleb, SFcompare. spec_float_cases. Qed.

Lemma leb_trans x y z :
  (x <=? y)%float = true → (y <=? z)%float = true → (x <=? z)%float = true.
Proof. rewrite !leb_spec. apply SFleb_trans. Qed.

Lemma reciprocal_out_spec (in_ out : buffer) scalar len :
  len ≤ length in_ → len ≤ length out →
  reciprocal_out in_ out scalar len
  = Some (transfer (λ x, scalar / x)%float len in_ out).
Proof. apply (outofplace_prefix (λ x, scalar / x)%float). Qed.

(** X5.  Without [setzero] the in-place [reciprocal] gives, whatever
    [thres] is, the buffer the two-buffer [reciprocal] writes when [out]
    starts as a copy of [in]. *)
Theorem reciprocal_in_place_as_copy (inout : buffer) scalar len thres :
  len ≤ length inout →
  reciprocal inout scalar len false thres
  = reciprocal_out inout inout scalar len.
Proof.
  intros Hlen. rewrite reciprocal_spec, reciprocal_out_spec by done.
  rewrite decide_True by done. by rewrite map_range_transfer.
Qed.

Lemma reciprocal_in_place_as_copy_witness :
  reciprocal [2; 0; -4]%float 3%float 2 false 5%float
  = reciprocal_out [2; 0; -4]%float [2; 0; -4]%float 3%float 2.
Proof. apply reciprocal_in_place_as_copy. simpl. lia. Defined.

(** X6.  With [setzero] and a threshold that is not negative, [reciprocal]
    stores [0] for every element [x <= 0] of the first [len]: it divides
    neither by a zero of either sign nor by a negative number. *)
Theorem reciprocal_guard_nonpositive (inout : buffer) scalar len thres :
  len ≤ length inout → (0 <=? thres)%float = true →
  ∃ res,
    reciprocal inout scalar len true thres = Some res
    ∧ ∀ i x, i < len → inout !! i = Some x → (x <=? 0)%float = true →
        res !! i = Some 0%float.
Proof.
  intros Hlen Hthres. eexists.
  split; [rewrite reciprocal_spec; by rewrite decide_True by done|].
  intros i x Hi Hx Hle.
  rewrite (map_range_lookup_lt _ len inout i x Hi Hx).
  by rewrite (leb_trans x 0 thres).
Qed.

Lemma reciprocal_guard_nonpositive_witness :
  ∃ res,
    reciprocal [2; 0; -0; -4]%float 3%float 4 true thres_default = Some res
    ∧ ∀ i x, i < 4 → [2; 0; -0; -4]%float !! i = Some x →
        (x <=? 0)%float = true → res !! i = Some 0%float.
Proof.
  apply (reciprocal_guard_nonpositive [2; 0; -0; -4]%float 3%float 4
           thres_default); [simpl; lia|reflexivity].
Defined.

Example reciprocal_guard_run :
  reciprocal [2; 0; -0; -4]%float 3%float 4 true thres_default
  = Some [1.5; 0; 0; 0]%float
  ∧ reciprocal [2; 0; -0; -4]%float 3%float 4 true (-1)%float
    = Some [1.5; infinity; neg_infinity; 0]%float.
Proof. split; by vm_compute. Qed.

(** X7.  With a threshold that is not negative, [setSmallValuesZero]
    replaces every element [x <= 0] of the first [len] by [0]: every
    negative element is wiped out, whatever its magnitude. *)
Theorem setSmallValuesZero_nonpositive (inout : buffer) len thres :
  len ≤ length inout → (0 <=? thres)%float = true →
  ∃ res,
    setSmallValuesZero inout len thres = Some res
    ∧ ∀ i x, i < len → inout !! i = Some x → (x <=? 0)%float = true →
        res !! i = Some 0%float.
Proof.
  intros Hlen Hthres. eexists.
  split; [rewrite setSmallValuesZero_spec; by rewrite decide_True by done|].
  intros i x Hi Hx Hle.
  rewrite (map_range_lookup_lt _ len inout i x Hi Hx).
  by rewrite (leb_trans x 0 thres).
Qed.

Lemma setSmallValuesZero_nonpositive_witness :
  ∃ res,
    setSmallValuesZero [3; -100; -0; 7]%float 4 thres_default = Some res
    ∧ ∀ i x, i < 4 → [3; -100; -0; 7]%float !! i = Some x →
        (x <=? 0)%float = true → res !! i = Some 0%float.
Proof.
  apply (setSmallValuesZero_nonpositive [3; -100; -0; 7]%float 4
           thres_default); [simpl; lia|reflexivity].
Defined.

(** X8.  After [setSmallValuesZero] every one of the first [len] cells
    holds [0] or a value that is not [<= thres]. *)
Theorem setSmallValuesZero_post (inout : buffer) len thres :
  len ≤ length inout →
  ∃ res,
    setSmallValuesZero inout len thres = Some res
    ∧ ∀ i y, i < len → res !! i = Some y →
        y = 0%float ∨ (y <=? thres)%float = false.
Proof.
  intros Hlen. eexists.
  split; [rewrite setSmallValuesZero_spec; by rewrite decide_True by done|].
  intros i y Hi Hy.
  destruct (lookup_lt_is_Some_2 inout i) as [x Hx]; [lia|].
  rewrite (map_range_lookup_lt _ len inout i x Hi Hx) in Hy.
  injection Hy as <-.
  destruct (x <=? thres)%float eqn:Hle; [by left|by right].
Qed.

Lemma setSmallValuesZero_post_witness :
  ∃ res,
    setSmallValuesZero [3; -100; 1e-16; 7]%float 3 thres_default = Some res
    ∧ ∀ i y, i < 3 → res !! i = Some y →
        y = 0%float ∨ (y <=? thres_default)%float = false.
Proof.
  apply (setSmallValuesZero_post [3; -100; 1e-16; 7]%float 3 thres_default).
  simpl. lia.
Defined.

(** X9.  With a threshold that is not negative, running
    [setSmallValuesZero] before the guarded [reciprocal] with the same
    [len] and [thres] changes nothing: the result is that of the guarded
    [reciprocal] alone. *)
Theorem setSmallValuesZero_then_reciprocal (inout : buffer) scalar len thres :
  (0 <=? thres)%float = true →
  (b ← setSmallValuesZero inout len thres; reciprocal b scalar len true thres)
  = reciprocal inout scalar len true thres.
Proof.
  intros Hthres. rewrite setSmallValuesZero_spec, (reciprocal_spec inout).
  case_decide as Hlen; [simpl|done].
  rewrite reciprocal_spec, length_map_range, decide_True by done. f_equal.
  apply list_eq. intros i. rewrite !lookup_map_range.
  destruct (inout !! i) as [x|]; [simpl|done]. f_equal.
  case_decide; [|done].
  destruct (x <=? thres)%float eqn:Hx.
  - by rewrite Hthres.
  - by rewrite Hx.
Qed.

Lemma setSmallValuesZero_then_reciprocal_witness :
  (b ← setSmallValuesZero [2; 0; -4; 1e-16]%float 4 thres_default;
   reciprocal b 3%float 4 true thres_default)
  = reciprocal [2; 0; -4; 1e-16]%float 3%float 4 true thres_default.
Proof. apply setSmallValuesZero_then_reciprocal. reflexivity. Defined.

(** ** ratio and NaN *)

Lemma add_nan_r x : (x + nan)%float = nan.
Proof.
  apply Prim2SF_inj. rewrite add_spec.
  change (Prim2SF nan) with S754_nan. by destruct (Prim2SF x).
Qed.

Lemma add_nan_l x : (nan + x)%float = nan.
Proof.
  apply Prim2SF_inj. rewrite add_spec.
  change (Prim2SF nan) with S754_nan. by destruct (Prim2SF x).
Qed.

Lemma div_nan_r x : (x / nan)%float = nan.
Proof.
  apply Prim2SF_inj. rewrite div_spec.
  change (Prim2SF nan) with S754_nan. by destruct (Prim2SF x).
Qed.

(** A NaN among the summands makes the running sum NaN, wherever it is. *)
Lemma foldl_add_nan (l : buffer) acc :
  acc = nan ∨ nan ∈ l → foldl PrimFloat.add acc l = nan.
Proof.
  revert acc. induction l as [|x l IH]; intros acc [Hacc|Hin]; simpl.
  - done.
  - by apply elem_of_nil in Hin.
  - apply IH. left. rewrite Hacc. apply add_nan_l.
  - apply elem_of_cons in Hin as [<-|Hin]; apply IH;
      [left; apply add_nan_r | by right].
Qed.

(** X10.  The guard [total != 0.0] of [ratio] does not stop a NaN: when one
    of the first [len] elements of [src] is NaN, the total is NaN and every
    one of the first [len] cells of [dest] is overwritten with NaN. *)
Theorem ratio_nan_spreads (src dest : buffer) len k :
  len ≤ length src → len ≤ length dest →
  k < len → src !! k = Some nan →
  ∃ res,
    ratio src dest len = Some res
    ∧ sum_from_zero (take len src) = nan
    ∧ ∀ i, i < len → res !! i = Some nan.
Proof.
  intros Hsrc Hdest Hk Hnan.
  assert (sum_from_zero (take len src) = nan) as Htotal.
  { apply foldl_add_nan. right. apply list_elem_of_lookup. exists k.
    by rewrite lookup_take_lt. }
  eexists. split; [by apply ratio_spec|]. split; [done|].
  intros i Hi. simpl. rewrite Htotal. simpl.
  destruct (lookup_lt_is_Some_2 src i) as [x Hx]; [lia|].
  rewrite (transfer_lookup_lt _ len src dest i x Hi Hdest Hx).
  by rewrite div_nan_r.
Qed.

Lemma ratio_nan_spreads_witness :
  ∃ res,
    ratio [1; nan; 3]%float [7; 7; 7; 7]%float 3 = Some res
    ∧ sum_from_zero (take 3 [1; nan; 3]%float) = nan
    ∧ ∀ i, i < 3 → res !! i = Some nan.
Proof.
  apply (ratio_nan_spreads [1; nan; 3]%float [7; 7; 7; 7]%float 3 1);
    (reflexivity || (simpl; lia)).
Defined.

(** ** signFlip, in general *)

Lemma opp_involutive x : (- - x)%float = x.
Proof.
  apply Prim2SF_inj. rewrite !opp_spec.
  destruct (Prim2SF x); simpl; by rewrite ?negb_involutive.
Qed.

(** The body of a column inside the buffer succeeds, and returns the buffer
    as it is or with that column negated. *)
Lemma signFlip_col_frame (b : buffer) m idx :
  0 < m → idx * m + m ≤ length b →
  ∃ flip : bool,
    signFlip_col m idx b
    = Some (if flip then map_range PrimFloat.opp (idx * m) m b else b).
Proof.
  intros Hm Hlen.
  destruct (signFlip_col_spec b m idx Hm Hlen) as (mx & j & x & _ & _ & Hcol).
  by exists (x <? 0)%float.
Qed.

(** X11.  On a matrix that lies inside its buffer, with [n_rows > 0],
    [signFlip] succeeds in whatever order the column bodies run, keeps the
    length, does not touch the cells after the matrix, and changes nothing
    but signs: every cell of the result holds the value it held or its
    negation. *)
Theorem signFlip_signs_only sched (inout : buffer) n_rows n_cols :
  0 < n_rows → n_rows * n_cols ≤ length inout →
  (∀ idx, idx ∈ sched → idx < n_cols) →
  ∃ res,
    signFlip_sched sched inout n_rows = Some res
    ∧ length res = length inout
    ∧ (∀ i x, inout !! i = Some x →
         res !! i = Some x ∨ res !! i = Some (- x)%float)
    ∧ (∀ i, n_rows * n_cols ≤ i → res !! i = inout !! i).
Proof.
  intros Hm Hlen Hsched.
  apply (for_each_list_invariant
    (λ _ b,
       length b = length inout
       ∧ (∀ i x, inout !! i = Some x →
            b !! i = Some x ∨ b !! i = Some (- x)%float)
       ∧ (∀ i, n_rows * n_cols ≤ i → b !! i = inout !! i))).
  { split; [done|]. split; [|done]. intros i x Hx. by left. }
  intros pre k post b Hsplit (Hb_len & Hb_sign & Hb_rest).
  assert (k < n_cols) as Hk.
  { apply Hsched. rewrite Hsplit, elem_of_app, elem_of_cons. auto. }
  destruct (signFlip_col_frame b n_rows k Hm) as [flip Hcol];
    [rewrite Hb_len; nia|].
  eexists. split; [done|].
  destruct flip; [|done].
  split; [by rewrite length_map_range|]. split.
  - intros i x Hx. rewrite lookup_map_range.
    destruct (Hb_sign i x Hx) as [-> | ->]; simpl; case_decide; auto.
    left. by rewrite opp_involutive.
  - intros i Hi. rewrite lookup_map_range, <- Hb_rest by done.
    destruct (b !! i); [simpl|done]. rewrite decide_False; [done|nia].
Qed.

Lemma signFlip_signs_only_witness :
  ∃ res,
    signFlip_sched [1; 0] [-1; 5; 0; 0; 9]%float 2 = Some res
    ∧ length res = 5
    ∧ (∀ i x, [-1; 5; 0; 0; 9]%float !! i = Some x →
         res !! i = Some x ∨ res !! i = Some (- x)%float)
    ∧ (∀ i, 2 * 2 ≤ i → res !! i = [-1; 5; 0; 0; 9]%float !! i).
Proof.
  apply (signFlip_signs_only [1; 0] [-1; 5; 0; 0; 9]%float 2 2);
    [lia|simpl; lia|].
  intros idx. rewrite !elem_of_cons, elem_of_nil. lia.
Defined.

(** X12.  With [n_rows = 0] there is no cell to scan, but the body still
    reads [inout[0]]: on an empty buffer [signFlip] with [n_cols > 0] runs
    out of bounds, and on any other buffer it returns the buffer as it
    is. *)
Theorem signFlip_no_rows (inout : buffer) n_cols :
  0 < n_cols →
  signFlip inout 0 n_cols
  = match inout with [] => None | _ :: _ => Some inout end.
Proof.
  intros Hcols.
  assert (∀ idx b, signFlip_col 0 idx b
                   = match b with [] => None | _ :: _ => Some b end) as Hcol.
  { intros idx b. unfold signFlip_col, signFlip_scan, signFlip_negate.
    simpl. destruct b as [|x b]; [done|]. simpl.
    by destruct (x <? 0)%float. }
  unfold signFlip, signFlip_sched. destruct inout as [|x inout].
  - destruct n_cols as [|n]; [lia|].
    change (counting 0 (S n)) with (0 :: counting 1 n).
    cbn [for_each]. by rewrite Hcol.
  - apply for_each_idle. intros idx. by rewrite Hcol.
Qed.

Lemma signFlip_no_rows_witness :
  signFlip [] 0 3 = None
  ∧ signFlip [-1; 2]%float 0 3 = Some [-1; 2]%float.
Proof.
  split.
  - apply (signFlip_no_rows [] 3). lia.
  - apply (signFlip_no_rows [-1; 2]%float 3). lia.
Defined.

(** A matrix and two orders of its column bodies, for the examples. *)
Lemma swapped_schedule : column_schedule 2 [1; 0].
Proof.
  split.
  - repeat constructor; rewrite ?elem_of_cons, ?elem_of_nil; lia.
  - intros idx. rewrite !elem_of_cons, elem_of_nil. lia.
Qed.

Lemma scenario_has_magnitude idx :
  idx < 2 → has_magnitude [1; -5; 3; 2; 1; -0.5]%float (idx * 3) 3.
Proof.
  destruct idx as [|[|idx]]; intros Hidx; [| |lia].
  - exists 0, 1%float. split; [simpl; lia|]. by split.
  - exists 3, 2%float. split; [simpl; lia|]. by split.
Qed.

(** A NaN is no first cell of largest magnitude, and a column has at most
    one such cell. *)
Lemma first_largest_not_nan (b : buffer) first n j :
  ¬ first_largest b first n j nan.
Proof. by intros (_ & _ & Hpos & _). Qed.

Lemma first_largest_one (b : buffer) first n j j' xj xj' :
  first_largest b first n j xj → first_largest b first n j' xj' →
  j = j' ∧ xj = xj'.
Proof.
  intros Hfirst Hfirst'.
  assert (j = j') as <-.
  { eapply first_largest_unique; [done|done| |].
    - by destruct Hfirst as (_ & _ & ? & _).
    - by destruct Hfirst' as (_ & _ & ? & _). }
  split; [done|].
  destruct Hfirst as (_ & ? & _), Hfirst' as (_ & ? & _). congruence.
Qed.

(** A column with a NaN: the NaN is passed over, and the column is negated
    on its [-5]. *)
Example signFlip_nan_passed_over :
  signFlip [nan; -5]%float 2 1 = Some [nan; 5]%float
  ∧ first_largest [nan; -5]%float 0 2 1 (-5)%float.
Proof.
  split; [by vm_compute|]. split; [lia|]. split; [done|]. split; [done|].
  split.
  - intros [|[|i]] x Hi; [| |lia]; by intros [= <-].
  - intros [|i] x Hi; [|lia]. by intros [= <-].
Qed.

(** X13.  On a matrix inside its buffer, with [n_rows > 0], in which every
    column has an element of magnitude above zero, [signFlip] handles every
    column on its own, in whatever order the column bodies run: the column
    is negated when its first element of largest magnitude is negative,
    and kept otherwise.  That element has a magnitude above zero, so it is
    not a NaN, and it is the only one of its column that [first_largest]
    holds of.  Cells after the matrix are not touched. *)
Theorem signFlip_by_columns sched (inout : buffer) n_rows n_cols :
  column_schedule n_cols sched →
  0 < n_rows → n_rows * n_cols ≤ length inout →
  (∀ idx, idx < n_cols → has_magnitude inout (idx * n_rows) n_rows) →
  ∃ res,
    signFlip_sched sched inout n_rows = Some res
    ∧ length res = length inout
    ∧ (∀ idx, idx < n_cols →
         ∃ j xj,
           first_largest inout (idx * n_rows) n_rows j xj
           ∧ ∀ i x, idx * n_rows ≤ i < idx * n_rows + n_rows →
               inout !! i = Some x →
               res !! i = Some (if (xj <? 0)%float then (- x)%float else x))
    ∧ (∀ i, n_rows * n_cols ≤ i → res !! i = inout !! i).
Proof.
  intros Hsched Hm Hlen Hcols.
  destruct (signFlip_sched_columns sched inout n_rows n_cols
              Hsched Hm Hlen Hcols) as (res & Hrun & Hres_len & Hres & Hrest).
  exists res. split; [done|]. split; [done|]. split; [|done].
  intros idx Hidx. destruct (Hres idx Hidx) as (j & xj & Hfirst & _ & Hcells).
  by exists j, xj.
Qed.

Lemma signFlip_by_columns_witness :
  ∃ res,
    signFlip_sched [1; 0] [1; -5; 3; 2; 1; -0.5]%float 3 = Some res
    ∧ length res = 6
    ∧ (∀ idx, idx < 2 →
         ∃ j xj,
           first_largest [1; -5; 3; 2; 1; -0.5]%float (idx * 3) 3 j xj
           ∧ ∀ i x, idx * 3 ≤ i < idx * 3 + 3 →
               [1; -5; 3; 2; 1; -0.5]%float !! i = Some x →
               res !! i = Some (if (xj <? 0)%float then (- x)%float else x))
    ∧ (∀ i, 3 * 2 ≤ i → res !! i = [1; -5; 3; 2; 1; -0.5]%float !! i).
Proof.
  apply (signFlip_by_columns [1; 0] [1; -5; 3; 2; 1; -0.5]%float 3 2).
  - apply swapped_schedule.
  - lia.
  - simpl. lia.
  - apply scenario_has_magnitude.
Defined.

(** X14.  On such a matrix the result of [signFlip] does not depend on the
    order in which the column bodies run. *)
Theorem signFlip_order_irrelevant sched1 sched2 (inout : buffer) n_rows n_cols :
  column_schedule n_cols sched1 → column_schedule n_cols sched2 →
  0 < n_rows → n_rows * n_cols ≤ length inout →
  (∀ idx, idx < n_cols → has_magnitude inout (idx * n_rows) n_rows) →
  signFlip_sched sched1 inout n_rows = signFlip_sched sched2 inout n_rows.
Proof.
  intros Hsched1 Hsched2 Hm Hlen Hcols.
  destruct (signFlip_sched_columns sched1 inout n_rows n_cols
              Hsched1 Hm Hlen Hcols) as (res1 & -> & _ & Hres1 & Hrest1).
  destruct (signFlip_sched_columns sched2 inout n_rows n_cols
              Hsched2 Hm Hlen Hcols) as (res2 & -> & _ & Hres2 & Hrest2).
  f_equal. apply list_eq. intros i.
  destruct (decide (i < n_rows * n_cols)) as [Hi|Hi].
  2:{ rewrite Hrest1, Hrest2 by lia. done. }
  destruct (lookup_lt_is_Some_2 inout i) as [x Hx]; [lia|].
  assert (i / n_rows < n_cols) as Hidx
    by (apply Nat.Div0.div_lt_upper_bound; lia).
  assert (i / n_rows * n_rows ≤ i < i / n_rows * n_rows + n_rows) as Hrange.
  { pose proof (Nat.div_mod_eq i n_rows).
    pose proof (Nat.mod_upper_bound i n_rows). lia. }
  destruct (Hres1 _ Hidx) as (j1 & xj1 & Hfirst1 & Hpos1 & Hcells1).
  destruct (Hres2 _ Hidx) as (j2 & xj2 & Hfirst2 & Hpos2 & Hcells2).
  assert (j1 = j2) as -> by (by eapply first_largest_unique).
  assert (xj1 = xj2) as ->
    by (destruct Hfirst1 as (_ & ? & _), Hfirst2 as (_ & ? & _); congruence).
  by rewrite (Hcells1 i x Hrange Hx), (Hcells2 i x Hrange Hx).
Qed.

Lemma signFlip_order_irrelevant_witness :
  signFlip_sched (counting 0 2) [1; -5; 3; 2; 1; -0.5]%float 3
  = signFlip_sched [1; 0] [1; -5; 3; 2; 1; -0.5]%float 3.
Proof.
  apply (signFlip_order_irrelevant (counting 0 2) [1; 0]
           [1; -5; 3; 2; 1; -0.5]%float 3 2).
  - apply counting_schedule.
  - apply swapped_schedule.
  - lia.
  - simpl. lia.
  - apply scenario_has_magnitude.
Defined.

(** X15.  On such a matrix one call of [signFlip] settles the signs: in
    every column of the result the first element of largest magnitude,
    which is not a NaN, is not negative, and a second call, in whatever order its column bodies
    run, returns the result of the first. *)
Theorem signFlip_twice_same sched1 sched2 (inout : buffer) n_rows n_cols :
  column_schedule n_cols sched1 → column_schedule n_cols sched2 →
  0 < n_rows → n_rows * n_cols ≤ length inout →
  (∀ idx, idx < n_cols → has_magnitude inout (idx * n_rows) n_rows) →
  ∃ res,
    signFlip_sched sched1 inout n_rows = Some res
    ∧ (∀ idx, idx < n_cols →
         ∃ j xj, first_largest res (idx * n_rows) n_rows j xj
                 ∧ (xj <? 0)%float = false)
    ∧ signFlip_sched sched2 res n_rows = Some res.
Proof. apply signFlip_sched_settles. Qed.

Lemma signFlip_twice_same_witness :
  ∃ res,
    signFlip_sched (counting 0 2) [1; -5; 3; 2; 1; -0.5]%float 3 = Some res
    ∧ (∀ idx, idx < 2 →
         ∃ j xj, first_largest res (idx * 3) 3 j xj
                 ∧ (xj <? 0)%float = false)
    ∧ signFlip_sched [1; 0] res 3 = Some res.
Proof.
  apply (signFlip_twice_same (counting 0 2) [1; 0]
           [1; -5; 3; 2; 1; -0.5]%float 3 2).
  - apply counting_schedule.
  - apply swapped_schedule.
  - lia.
  - simpl. lia.
  - apply scenario_has_magnitude.
Defined.

Lemma SFltb_neg_magnitude x :
  SFltb x (S754_zero false) = true →
  SFltb (S754_zero false) (SFmagnitude x) = true.
Proof. unfold SFmagnitude, SFltb, SFcompare. spec_float_cases. Qed.

Lemma ltb_neg_magnitude x :
  (x <? 0)%float = true → (0 <? magnitude x)%float = true.
Proof.
  rewrite !ltb_spec, Prim2SF_magnitude, Prim2SF_zero.
  apply SFltb_neg_magnitude.
Qed.

(** The values without a magnitude above zero are the two zeros and NaN. *)
Lemma without_magnitude_cases x :
  (0 <? magnitude x)%float = false →
  x = 0%float ∨ x = (-0)%float ∨ x = nan.
Proof.
  rewrite ltb_spec, Prim2SF_magnitude, Prim2SF_zero. intros Hnone.
  rewrite <- (SF2Prim_Prim2SF x).
  destruct (Prim2SF x) as [[]|[]| |[] ? ?]; try done; auto.
Qed.

(** X16.  A column in which no element has a magnitude above zero (its
    elements are zeros and NaNs) is not decided on its own elements: the
    scan ends with [max_index = 0], and the body negates the column exactly
    when [inout[0]], as it reads it, is negative.  The first column, when
    it is such a column, is therefore never negated. *)
Theorem signFlip_col_without_magnitude (b : buffer) m idx x0 :
  0 < m → idx * m + m ≤ length b →
  (∀ i x, idx * m ≤ i < idx * m + m → b !! i = Some x →
     (0 <? magnitude x)%float = false) →
  b !! 0 = Some x0 →
  signFlip_scan b (idx * m) m = Some (0%float, 0)
  ∧ signFlip_col m idx b
    = Some (if (x0 <? 0)%float
            then map_range PrimFloat.opp (idx * m) m b else b)
  ∧ (idx = 0 → signFlip_col m idx b = Some b).
Proof.
  intros Hm Hlen Hnone H0.
  assert (signFlip_scan b (idx * m) m = Some (0%float, 0)) as Hscan.
  { destruct (signFlip_scan_spec b (idx * m) m Hlen)
      as ([mx j] & Hscan & _ & [[-> ->]|(xj & Hj & Hxj & -> & Hpos & _)]);
      [done|].
    by rewrite (Hnone j xj Hj Hxj) in Hpos. }
  assert (signFlip_col m idx b
          = Some (if (x0 <? 0)%float
                  then map_range PrimFloat.opp (idx * m) m b else b)) as Hcol.
  { unfold signFlip_col. rewrite Hscan. simpl. unfold load. rewrite H0. simpl.
    destruct (x0 <? 0)%float; [by apply signFlip_negate_spec|done]. }
  split; [done|]. split; [done|]. intros ->. rewrite Hcol.
  destruct (x0 <? 0)%float eqn:Hneg; [|done].
  apply ltb_neg_magnitude in Hneg.
  rewrite (Hnone 0 x0) in Hneg; [done|lia|done].
Qed.

Lemma signFlip_col_without_magnitude_witness :
  signFlip_scan [-1; 5; nan; 0]%float (1 * 2) 2 = Some (0%float, 0)
  ∧ signFlip_col 2 1 [-1; 5; nan; 0]%float
    = Some (if (-1 <? 0)%float
            then map_range PrimFloat.opp (1 * 2) 2 [-1; 5; nan; 0]%float
            else [-1; 5; nan; 0]%float)
  ∧ (1 = 0 → signFlip_col 2 1 [-1; 5; nan; 0]%float
             = Some [-1; 5; nan; 0]%float).
Proof.
  apply (signFlip_col_without_magnitude [-1; 5; nan; 0]%float 2 1 (-1)%float).
  - lia.
  - simpl. lia.
  - intros i x Hi.
    destruct i as [|[|[|[|i]]]]; simpl in *; try lia; by intros [= <-].
  - reflexivity.
Defined.

Example signFlip_nan_column_run :
  signFlip [-1; 5; nan; 0]%float 2 2 = Some [-1; 5; nan; -0]%float
  ∧ signFlip [nan; 0; -1; 5]%float 2 2 = Some [nan; 0; -1; 5]%float.
Proof. split; by vm_compute. Qed.

(** ** Negative vector entries *)

Section NegativeEntries.

Variable matrixVectorOp :
  buffer → buffer → nat → nat → bool → (float → float → float) → option buffer.

Lemma ltb_negative_small b : (b <? 0)%float = true → (b <? 1e-10)%float = true.
Proof. intros Hb. by apply (ltb_trans b 0). Qed.

(** X17.  The test [b < 1e-10] is on the signed vector entry: whatever the
    engine, [matrixVectorBinaryDivSkipZero] never divides by a negative
    entry (the element becomes [0] with [return_zero] and is kept without
    it), and the matrix-vector [setSmallValuesZero] zeroes every element
    paired with a negative entry. *)
Theorem negative_entries_skipped (data vec : buffer) n_row n_col rowMajor
    (return_zero : bool) thres :
  ∃ op mask : float → float → float,
    matrixVectorBinaryDivSkipZero matrixVectorOp data vec n_row n_col
      rowMajor return_zero
    = matrixVectorOp data vec n_col n_row rowMajor op
    ∧ setSmallValuesZero_vec matrixVectorOp data vec n_row n_col thres
      = matrixVectorOp data vec n_col n_row false mask
    ∧ ∀ a b, (b <? 0)%float = true →
        op a b = (if return_zero then 0%float else a) ∧ mask a b = 0%float.
Proof.
  exists (if return_zero then divSkipZero_zero_op else divSkipZero_keep_op),
         maskSmall_op.
  split; [by destruct return_zero|]. split; [done|].
  intros a b Hb%ltb_negative_small.
  unfold maskSmall_op, divSkipZero_zero_op, divSkipZero_keep_op.
  destruct return_zero; by rewrite Hb.
Qed.

End NegativeEntries.

Lemma negative_entries_skipped_witness :
  ∃ op mask : float → float → float,
    matrixVectorBinaryDivSkipZero (broadcast_engine (λ D _ _ idx, idx / D))
      [1; 2; 3; 4]%float [-2; 2]%float 2 2 true false
    = broadcast_engine (λ D _ _ idx, idx / D)
        [1; 2; 3; 4]%float [-2; 2]%float 2 2 true op
    ∧ setSmallValuesZero_vec (broadcast_engine (λ D _ _ idx, idx / D))
        [1; 2; 3; 4]%float [-2; 2]%float 2 2 0%float
      = broadcast_engine (λ D _ _ idx, idx / D)
          [1; 2; 3; 4]%float [-2; 2]%float 2 2 false mask
    ∧ ∀ a b, (b <? 0)%float = true →
        op a b = (if false then 0%float else a) ∧ mask a b = 0%float.
Proof.
  apply (negative_entries_skipped (broadcast_engine (λ D _ _ idx, idx / D))).
Defined.

(** ** Unguarded inputs *)

Lemma sqrt_negative x : (x <? 0)%float = true → PrimFloat.sqrt x = nan.
Proof.
  rewrite ltb_spec, Prim2SF_zero. intros Hneg.
  apply Prim2SF_inj. rewrite sqrt_spec. change (Prim2SF nan) with S754_nan.
  by destruct (Prim2SF x) as [[]|[]| |[] ? ?].
Qed.

Lemma div_zero_positive s :
  (0 <? s)%float = true →
  (s / 0)%float = infinity ∧ (s / -0)%float = neg_infinity.
Proof.
  rewrite ltb_spec, Prim2SF_zero. intros Hpos.
  split; apply Prim2SF_inj; rewrite div_spec.
  - change (Prim2SF 0) with (S754_zero false).
    change (Prim2SF infinity) with (S754_infinity false).
    by destruct (Prim2SF s) as [[]|[]| |[] ? ?].
  - change (Prim2SF (-0)) with (S754_zero true).
    change (Prim2SF neg_infinity) with (S754_infinity true).
    by destruct (Prim2SF s) as [[]|[]| |[] ? ?].
Qed.

Lemma leb_nan_l t : (nan <=? t)%float = false.
Proof. rewrite leb_spec. by change (Prim2SF nan) with S754_nan. Qed.

(** X18.  Where [seqRoot] does not clamp, a negative product gives NaN: the
    in-place form stores NaN for every element [x] with [x * scalar < 0],
    and so does the two-buffer form, with or without [set_neg_zero], for
    every such element that is not itself negative. *)
Theorem seqRoot_negative_product (inout in_ out : buffer) scalar len
    (set_neg_zero : bool) :
  len ≤ length inout → len ≤ length in_ → len ≤ length out →
  ∃ res res',
    seqRoot inout scalar len = Some res
    ∧ seqRoot_out in_ out scalar len set_neg_zero = Some res'
    ∧ (∀ i x, i < len → inout !! i = Some x →
         (x * scalar <? 0)%float = true → res !! i = Some nan)
    ∧ (∀ i x, i < len → in_ !! i = Some x → (x <? 0)%float = false →
         (x * scalar <? 0)%float = true → res' !! i = Some nan).
Proof.
  intros Hinout Hin Hout. eexists _, _.
  split; [rewrite seqRoot_spec; by rewrite decide_True by done|].
  split; [by apply seqRoot_out_spec|]. split.
  - intros i x Hi Hx Hneg.
    rewrite (map_range_lookup_lt _ len inout i x Hi Hx).
    by rewrite sqrt_negative.
  - intros i x Hi Hx Hx0 Hneg.
    rewrite (transfer_lookup_lt _ len in_ out i x Hi Hout Hx).
    rewrite Hx0, sqrt_negative by done. by destruct set_neg_zero.
Qed.

Lemma seqRoot_negative_product_witness :
  ∃ res res',
    seqRoot [4; -9; 2.25]%float (-1)%float 3 = Some res
    ∧ seqRoot_out [4; -0; 9]%float [7; 7; 7]%float (-1)%float 3 true
      = Some res'
    ∧ (∀ i x, i < 3 → [4; -9; 2.25]%float !! i = Some x →
         (x * -1 <? 0)%float = true → res !! i = Some nan)
    ∧ (∀ i x, i < 3 → [4; -0; 9]%float !! i = Some x →
         (x <? 0)%float = false →
         (x * -1 <? 0)%float = true → res' !! i = Some nan).
Proof.
  apply (seqRoot_negative_product [4; -9; 2.25]%float [4; -0; 9]%float
           [7; 7; 7]%float (-1)%float 3 true); simpl; lia.
Defined.

(** X19.  Without the guard a zero is divided by: with a scalar above zero
    both forms of [reciprocal] turn every [0] among the first [len] elements
    into [+infinity] and every [-0] into [-infinity]. *)
Theorem reciprocal_of_zero (inout in_ out : buffer) scalar len thres :
  len ≤ length inout → len ≤ length in_ → len ≤ length out →
  (0 <? scalar)%float = true →
  ∃ res res',
    reciprocal inout scalar len false thres = Some res
    ∧ reciprocal_out in_ out scalar len = Some res'
    ∧ (∀ i, i < len →
         (inout !! i = Some 0%float → res !! i = Some infinity)
         ∧ (inout !! i = Some (-0)%float → res !! i = Some neg_infinity))
    ∧ (∀ i, i < len →
         (in_ !! i = Some 0%float → res' !! i = Some infinity)
         ∧ (in_ !! i = Some (-0)%float → res' !! i = Some neg_infinity)).
Proof.
  intros Hinout Hin Hout [Hpos Hneg]%div_zero_positive. eexists _, _.
  split; [rewrite reciprocal_spec; by rewrite decide_True by done|].
  split; [by apply reciprocal_out_spec|]. split.
  - intros i Hi. split; intros Hx;
      rewrite (map_range_lookup_lt _ len inout i _ Hi Hx); by f_equal.
  - intros i Hi. split; intros Hx;
      rewrite (transfer_lookup_lt _ len in_ out i _ Hi Hout Hx); by f_equal.
Qed.

Lemma reciprocal_of_zero_witness :
  ∃ res res',
    reciprocal [2; 0; -0]%float 3%float 3 false thres_default = Some res
    ∧ reciprocal_out [2; 0; -0]%float [7; 7; 7]%float 3%float 3 = Some res'
    ∧ (∀ i, i < 3 →
         ([2; 0; -0]%float !! i = Some 0%float → res !! i = Some infinity)
         ∧ ([2; 0; -0]%float !! i = Some (-0)%float
            → res !! i = Some neg_infinity))
    ∧ (∀ i, i < 3 →
         ([2; 0; -0]%float !! i = Some 0%float → res' !! i = Some infinity)
         ∧ ([2; 0; -0]%float !! i = Some (-0)%float
            → res' !! i = Some neg_infinity)).
Proof.
  apply (reciprocal_of_zero [2; 0; -0]%float [2; 0; -0]%float [7; 7; 7]%float
           3%float 3 thres_default); (reflexivity || (simpl; lia)).
Defined.

(** X20.  The thresholds do not catch NaN: [setSmallValuesZero] leaves
    every NaN among the first [len] elements in place, and [reciprocal]
    with [setzero] stores NaN for it, whatever [thres] and [scalar] are. *)
Theorem nan_passes_thresholds (inout : buffer) scalar len thres :
  len ≤ length inout →
  ∃ res res',
    setSmallValuesZero inout len thres = Some res
    ∧ reciprocal inout scalar len true thres = Some res'
    ∧ ∀ i, i < len → inout !! i = Some nan →
        res !! i = Some nan ∧ res' !! i = Some nan.
Proof.
  intros Hlen. eexists _, _.
  split; [rewrite setSmallValuesZero_spec; by rewrite decide_True by done|].
  split; [rewrite reciprocal_spec; by rewrite decide_True by done|].
  intros i Hi Hx.
  rewrite !(map_range_lookup_lt _ len inout i nan Hi Hx).
  by rewrite leb_nan_l, div_nan_r.
Qed.

Lemma nan_passes_thresholds_witness :
  ∃ res res',
    setSmallValuesZero [2; nan; -4]%float 3 thres_default = Some res
    ∧ reciprocal [2; nan; -4]%float 3%float 3 true thres_default = Some res'
    ∧ ∀ i, i < 3 → [2; nan; -4]%float !! i = Some nan →
        res !! i = Some nan ∧ res' !! i = Some nan.
Proof.
  apply (nan_passes_thresholds [2; nan; -4]%float 3%float 3 thres_default).
  simpl. lia.
Defined.

(** ** Bounds *)

(** X21.  The in-place loops check no bound and touch every index below
    [len]: [power], [seqRoot], [reciprocal] and [setSmallValuesZero] run
    outside the buffer exactly when [len] exceeds its length, whatever the
    other arguments are. *)
Theorem in_place_overrun (inout : buffer) scalar len (setzero : bool) thres :
  (power inout scalar len = None ↔ length inout < len)
  ∧ (seqRoot inout scalar len = None ↔ length inout < len)
  ∧ (reciprocal inout scalar len setzero thres = None ↔ length inout < len)
  ∧ (setSmallValuesZero inout len thres = None ↔ length inout < len).
Proof.
  rewrite power_spec, seqRoot_spec, reciprocal_spec, setSmallValuesZero_spec.
  case_decide; repeat split; intros; (done || lia).
Qed.

(** ** A column of zeros in the whole of signFlip *)







Example signFlip_zero_column_run :
  signFlip [-1; 5; 0; -0]%float 2 2 = Some [-1; 5; -0; 0]%float
  ∧ signFlip_col 2 0 [-1; 5; 0; -0]%float = Some [-1; 5; 0; -0]%float.
Proof. split; by vm_compute. Qed.

End Matrix.
